(** * oil / asdl: run-time checked ASDL objects and the typed arithmetic parser

    A shallow embedding of [asdl/py_meta.py] (dynamic type checks and
    construction of schema-described objects, generation of the classes of a
    schema) and of [asdl/typed_arith_parse.py] (the handlers and the
    precedence table of the shell arithmetic grammar), with the properties
    the design document states about them. *)

From Stdlib Require Import ZArith String List Lia.
From stdpp Require Import gmap strings list fin_maps.

#[local] Set Warnings "-register-all".
Local Open Scope Z_scope.
Local Open Scope string_scope.

(** ** Outcomes of a Python call: a value or a raised exception *)

Inductive result (E A : Type) : Type :=
| Ok (a : A)
| Raise (e : E).
Arguments Ok {E A} a.
Arguments Raise {E A} e.

Definition bind {E A B} (m : result E A) (k : A -> result E B) : result E B :=
  match m with
  | Ok a => k a
  | Raise e => Raise e
  end.

Declare Scope result_scope.
Delimit Scope result_scope with result.
Notation "x <- m ;; k" := (bind m (fun x => k))
  (at level 100, m at next level, right associativity) : result_scope.
Notation "m ;;; k" := (bind m (fun _ => k))
  (at level 100, right associativity) : result_scope.

Definition is_ok {E A} (r : result E A) : bool :=
  match r with Ok _ => true | Raise _ => false end.

(** ** Python values and classes, as far as [_CheckType] inspects them *)

Module py_meta.

(** The class of a value.  [c_user] stands for every class that is not a
    builtin: a host class named by a [UserType] descriptor, or a class that
    [MakeTypes] generated.  [ASDL_TYPE] is the identity of the descriptor
    object stored in the class attribute of that name ([None] when the class
    has no such attribute, or inherits [Obj.ASDL_TYPE = None]). *)
Inductive pyclass : Type :=
| c_NoneType
| c_bool
| c_int
| c_str
| c_list
| c_user (name : string) (ASDL_TYPE : option nat).

#[global] Instance pyclass_eq_dec : EqDecision pyclass.
Proof. solve_decision. Defined.

Inductive pyvalue : Type :=
| VNone
| VBool (b : bool)
| VInt (i : Z)
| VStr (s : string)
| VList (items : list pyvalue)
| VObj (cls_name : string) (ASDL_TYPE : option nat).

Definition __class__ (v : pyvalue) : pyclass :=
  match v with
  | VNone => c_NoneType
  | VBool _ => c_bool
  | VInt _ => c_int
  | VStr _ => c_str
  | VList _ => c_list
  | VObj n a => c_user n a
  end.

(** [bool] is a subclass of [int]; the other classes of the model are
    unrelated to each other. *)
Definition issubclass (c d : pyclass) : bool :=
  bool_decide (c = d) ||
  match c, d with
  | c_bool, c_int => true
  | _, _ => false
  end.

Definition isinstance (v : pyvalue) (c : pyclass) : bool :=
  issubclass (__class__ v) c.

(** ** Type descriptors ([asdl.StrType], [asdl.MaybeType], ...)

    Descriptor objects of compound types are compared with [is].  Every
    [Product], [Sum] and [Constructor] object has an identity [oid]; a field
    that refers to one carries that identity (the object graph of a
    recursive schema is cyclic).  Of a [Sum] the check reads whether it is
    simple and the identities of its constructors, [types]. *)
Inductive type_desc : Type :=
| StrType
| IntType
| BoolType
| UserType (typ : pyclass)
| MaybeType (desc : type_desc)
| ArrayType (desc : type_desc)
| Product (oid : nat)
| Sum (oid : nat) (is_simple : bool) (types : list nat)
| Constructor (oid : nat).

Inductive exn : Type :=
| AssertionError_InvalidConstructor
| AssertionError_Field (name : string) (desc : type_desc) (value : pyvalue)
| AttributeError (name : string)
| TypeError_Duplicate (name : string)
| TypeError_subscript
| ValueError_Required (name : string)
| IndexError
| KeyError (name : string).

Local Open Scope result_scope.

(** The [for item in value] loop of the array case: the first entry that
    raises or fails decides. *)
Fixpoint check_items (check : pyvalue -> result exn bool) (items : list pyvalue)
  : result exn bool :=
  match items with
  | [] => Ok true
  | item :: rest =>
      ok <- check item ;;
      if ok then check_items check rest else Ok false
  end.

Definition is_oid (actual_desc : option nat) (oid : nat) : bool :=
  bool_decide (actual_desc = Some oid).

Fixpoint _CheckType (value : pyvalue) (expected_desc : type_desc) {struct expected_desc}
  : result exn bool :=
  match expected_desc with
  | Constructor _ => Raise AssertionError_InvalidConstructor
  | MaybeType desc =>
      match value with
      | VNone => Ok true
      | _ => _CheckType value desc
      end
  | ArrayType desc =>
      match value with
      | VList items => check_items (fun item => _CheckType item desc) items
      | _ => Ok false
      end
  | StrType => Ok (isinstance value c_str)
  | IntType => Ok (isinstance value c_int)
  | BoolType => Ok (isinstance value c_bool)
  | UserType typ => Ok (isinstance value typ)
  | Product oid =>
      match value with
      | VObj _ actual_desc => Ok (is_oid actual_desc oid)
      | _ => Ok false
      end
  | Sum oid is_simple types =>
      match value with
      | VObj _ actual_desc =>
          if is_simple then Ok (is_oid actual_desc oid)
          else Ok (existsb (is_oid actual_desc) types)
      | _ => Ok false
      end
  end.

(** ** Compound descriptors and the instances built from them

    A [Product] or [Constructor] descriptor as the construction engine reads
    it: the ordered (field name, descriptor) pairs. *)
Record CompoundType : Type := { fields : list (string * type_desc) }.

Definition GetFields (T : CompoundType) : list (string * type_desc) := fields T.

Definition GetFieldNames (T : CompoundType) : list string := (fields T).*1.

Fixpoint assoc (name : string) (l : list (string * type_desc)) : option type_desc :=
  match l with
  | [] => None
  | (n, d) :: rest => if String.eqb name n then Some d else assoc name rest
  end.

(** [None] stands for the [KeyError] of the source. *)
Definition LookupFieldType (T : CompoundType) (field_name : string) : option type_desc :=
  assoc field_name (fields T).

(** Modelled from the spec: [const.NO_INTEGER] is defined outside the two
    source files; section 4.2 calls it the explicit unset sentinel matched
    to the wrapped type.  It is an [int]; nothing below depends on which. *)
Definition NO_INTEGER : Z := -1.

(** [self._assigned] is an attribute like any other: [__setattr__] lets a
    caller rebind it to an arbitrary value, after which subscripting it with
    a field name raises. *)
Inductive assigned_table : Type :=
| Flags (m : gmap string bool)
| Rebound (v : pyvalue).

Record Instance : Type := {
  _assigned : assigned_table;
  __dict__ : gmap string pyvalue
}.

(** [self._assigned[name]] *)
Definition get_assigned (self : Instance) (name : string) : result exn bool :=
  match _assigned self with
  | Flags m =>
      match m !! name with
      | Some b => Ok b
      | None => Raise (KeyError name)
      end
  | Rebound _ => Raise TypeError_subscript
  end.

(** [self._assigned[name] = True] *)
Definition set_assigned (self : Instance) (name : string) : result exn Instance :=
  match _assigned self with
  | Flags m => Ok {| _assigned := Flags (<[name:=true]> m); __dict__ := __dict__ self |}
  | Rebound _ => Raise TypeError_subscript
  end.

Definition __setattr__ (T : CompoundType) (self : Instance) (name : string) (value : pyvalue)
  : result exn Instance :=
  if String.eqb name "_assigned" then
    Ok {| _assigned := Rebound value; __dict__ := __dict__ self |}
  else
    match LookupFieldType T name with
    | None => Raise (AttributeError name)
    | Some desc =>
        ok <- _CheckType value desc ;;
        if ok then
          self <- set_assigned self name ;;
          Ok {| _assigned := _assigned self; __dict__ := <[name:=value]> (__dict__ self) |}
        else Raise (AssertionError_Field name desc value)
    end.

(** The value [_SetDefaults] stores for a field of this descriptor, if any. *)
Definition default_value (desc : type_desc) : option pyvalue :=
  match desc with
  | MaybeType child =>
      Some match child with
           | IntType => VInt NO_INTEGER
           | StrType => VStr ""
           | _ => VNone
           end
  | ArrayType _ => Some (VList [])
  | _ => None
  end.

Fixpoint _SetDefaults_loop (T : CompoundType) (fs : list (string * type_desc))
    (self : Instance) : result exn Instance :=
  match fs with
  | [] => Ok self
  | (name, desc) :: rest =>
      match default_value desc with
      | Some value =>
          self <- __setattr__ T self name value ;;
          _SetDefaults_loop T rest self
      | None => _SetDefaults_loop T rest self
      end
  end.

Definition _SetDefaults (T : CompoundType) (self : Instance) : result exn Instance :=
  _SetDefaults_loop T (GetFields T) self.

(** [for i, val in enumerate(args)]: [field_names[i]] raises [IndexError]
    past the end of the list. *)
Fixpoint _Init_args (T : CompoundType) (field_names : list string) (i : nat)
    (args : list pyvalue) (self : Instance) : result exn Instance :=
  match args with
  | [] => Ok self
  | val :: rest =>
      match field_names !! i with
      | None => Raise IndexError
      | Some name =>
          self <- __setattr__ T self name val ;;
          _Init_args T field_names (S i) rest self
      end
  end.

(** [for name, val in kwargs.items()]: the keyword arguments in the order
    the dict yields them. *)
Fixpoint _Init_kwargs (T : CompoundType) (kwargs : list (string * pyvalue))
    (self : Instance) : result exn Instance :=
  match kwargs with
  | [] => Ok self
  | (name, val) :: rest =>
      dup <- get_assigned self name ;;
      if dup then Raise (TypeError_Duplicate name)
      else
        self <- __setattr__ T self name val ;;
        _Init_kwargs T rest self
  end.

Fixpoint _Init_required (field_names : list string) (self : Instance) : result exn unit :=
  match field_names with
  | [] => Ok tt
  | name :: rest =>
      a <- get_assigned self name ;;
      if a then _Init_required rest self
      else Raise (ValueError_Required name)
  end.

Definition _Init (T : CompoundType) (self : Instance) (args : list pyvalue)
    (kwargs : list (string * pyvalue)) : result exn Instance :=
  let field_names := GetFieldNames T in
  self <- _Init_args T field_names 0 args self ;;
  self <- _Init_kwargs T kwargs self ;;
  _Init_required field_names self ;;;
  Ok self.

(** [{f: False for f in self.ASDL_TYPE.GetFieldNames()}] *)
Definition fresh_flags (T : CompoundType) : gmap string bool :=
  list_to_map ((fun f => (f, false)) <$> GetFieldNames T).

Definition is_nil {A} (l : list A) : bool :=
  match l with [] => true | _ => false end.

(** [DebugCompoundObj.__init__]: the instance, or the exception that aborts
    the construction. *)
Definition __init__ (T : CompoundType) (args : list pyvalue)
    (kwargs : list (string * pyvalue)) : result exn Instance :=
  let self := {| _assigned := Flags (fresh_flags T); __dict__ := ∅ |} in
  self <- _SetDefaults T self ;;
  if negb (is_nil args) || negb (is_nil kwargs) then _Init T self args kwargs
  else Ok self.

(** [CheckUnassigned]: the names of the unassigned fields that are not
    [Maybe], all of them in one error. *)
Fixpoint unassigned_names (T : CompoundType) (field_names : list string)
    (self : Instance) : result exn (list string) :=
  match field_names with
  | [] => Ok []
  | name :: rest =>
      a <- get_assigned self name ;;
      more <- unassigned_names T rest self ;;
      if a then Ok more
      else
        match LookupFieldType T name with
        | None => Raise (KeyError name)
        | Some (MaybeType _) => Ok more
        | Some _ => Ok (name :: more)
        end
  end.

(** ** Generation of the classes of a schema

    The schema objects [MakeTypes] walks: a definition has a name and a
    value, which is an [asdl.Sum] (its constructors in declaration order), an
    [asdl.Product], or anything else. *)
Record ConstructorObj : Type := {
  cons_oid : nat;
  name : string;
  cons_fields : list (string * type_desc)
}.

Record SumObj : Type := { sum_oid : nat; types : list ConstructorObj }.

Record ProductObj : Type := { prod_oid : nat; prod_fields : list (string * type_desc) }.

Inductive TypeObj : Type :=
| TSum (sum_type : SumObj)
| TProduct (typ : ProductObj)
| TOther.

Record Defn : Type := { defn_name : string; value : TypeObj }.

Record Module : Type := { dfns : list Defn }.

(** Modelled from the spec: [asdl.is_simple] is defined outside the two
    source files; by the glossary a sum is simple when every alternative
    carries no fields. *)
Definition is_simple (sum_type : SumObj) : bool :=
  forallb (fun cons_ => is_nil (cons_fields cons_)) (types sum_type).

(** What [MakeTypes] stores in [root]: the classes made with [type(...)],
    with the attributes it gives them. *)
Inductive pyobj : Type :=
| SimpleClass (class_name : string) (ASDL_TYPE : SumObj)
    (singletons : gmap string (Z * string))
| BaseClass (class_name : string)
| ConsClass (class_name : string) (base_class : string) (ASDL_TYPE : ConstructorObj)
    (tag : Z)
| TagEnum (enum_name : string) (tag_num : gmap string Z)
| ProductClass (class_name : string) (ASDL_TYPE : ProductObj).

(** [for i, cons in enumerate(sum_type.types)] of a simple sum: the
    attribute [cons.name] of the class is the instance [cls(i + 1, cons.name)]. *)
Fixpoint simple_loop (i : nat) (conss : list ConstructorObj)
    (attrs : gmap string (Z * string)) : gmap string (Z * string) :=
  match conss with
  | [] => attrs
  | cons_ :: rest =>
      let enum_id := Z.of_nat i + 1 in
      simple_loop (S i) rest (<[name cons_ := (enum_id, name cons_)]> attrs)
  end.

(** The same loop of a compound sum: a class per alternative, stored in
    [root], and its tag recorded in [tag_num]. *)
Fixpoint cons_loop (base_class : string) (i : nat) (conss : list ConstructorObj)
    (root : gmap string pyobj) (tag_num : gmap string Z)
  : gmap string pyobj * gmap string Z :=
  match conss with
  | [] => (root, tag_num)
  | cons_ :: rest =>
      let tag := Z.of_nat i + 1 in
      let tag_num := <[name cons_ := tag]> tag_num in
      let cls := ConsClass (name cons_) base_class cons_ tag in
      cons_loop base_class (S i) rest (<[name cons_ := cls]> root) tag_num
  end.

Inductive build_error : Type :=
| AssertionError_typ (defn : string).

(** The body of [for defn in module.dfns].  The class of a simple sum is
    bound in [root] and then given its attributes through the same
    reference; the model builds the attributes first and binds the finished
    class, which leaves the same [root]. *)
Definition MakeTypes_defn (root : gmap string pyobj) (defn : Defn)
  : result build_error (gmap string pyobj) :=
  match value defn with
  | TSum sum_type =>
      if is_simple sum_type then
        let class_name := defn_name defn +:+ "_e" in
        let cls := SimpleClass class_name sum_type (simple_loop 0 (types sum_type) ∅) in
        Ok (<[class_name := cls]> root)
      else
        let root := <[defn_name defn := BaseClass (defn_name defn)]> root in
        let '(root, tag_num) := cons_loop (defn_name defn) 0 (types sum_type) root ∅ in
        let enum_name := defn_name defn +:+ "_e" in
        Ok (<[enum_name := TagEnum enum_name tag_num]> root)
  | TProduct typ =>
      Ok (<[defn_name defn := ProductClass (defn_name defn) typ]> root)
  | TOther => Raise (AssertionError_typ (defn_name defn))
  end.

(** An unrecognised kind of definition aborts the walk with an
    [AssertionError]. *)
Fixpoint MakeTypes_loop (dfns : list Defn) (root : gmap string pyobj)
  : result build_error (gmap string pyobj) :=
  match dfns with
  | [] => Ok root
  | defn :: rest =>
      root <- MakeTypes_defn root defn ;;
      MakeTypes_loop rest root
  end.

Definition MakeTypes (module : Module) (root : gmap string pyobj)
  : result build_error (gmap string pyobj) :=
  MakeTypes_loop (dfns module) root.

(** ** Vocabulary of the statements *)

(** The names a definition binds in [root]. *)
Definition names_of_defn (defn : Defn) : list string :=
  match value defn with
  | TSum sum_type =>
      if is_simple sum_type then [defn_name defn +:+ "_e"]
      else (defn_name defn :: (name <$> types sum_type)) ++ [defn_name defn +:+ "_e"]
  | TProduct _ => [defn_name defn]
  | TOther => []
  end.

Definition registered_names (module : Module) : list string :=
  mjoin (names_of_defn <$> dfns module).

(** The [tag] attribute of the class bound to a name, if any. *)
Definition tag_of (o : option pyobj) : option Z :=
  match o with
  | Some (ConsClass _ _ _ tag) => Some tag
  | _ => None
  end.

(** A schema with a compound sum of three alternatives and a record. *)
Definition arith_sum : SumObj :=
  {| sum_oid := 0;
     types := [ {| cons_oid := 1; name := "Const"; cons_fields := [("i", IntType)] |};
                {| cons_oid := 2; name := "ArithVar"; cons_fields := [("name", StrType)] |};
                {| cons_oid := 3; name := "ArithUnary";
                   cons_fields := [("op", StrType); ("a", Sum 0 false [1%nat; 2%nat; 3%nat])] |} ] |}.

Definition demo_module : Module :=
  {| dfns := [ {| defn_name := "arith_expr"; value := TSum arith_sum |};
               {| defn_name := "token";
                  value := TProduct {| prod_oid := 4; prod_fields := [("val", StrType)] |} |} ] |}.

(** The instance [__init__] starts from. *)
Definition fresh (T : CompoundType) : Instance :=
  {| _assigned := Flags (fresh_flags T); __dict__ := ∅ |}.

(** The instance after the defaults and all supplied values are applied:
    [__init__] up to, and without, the required-field loop of [_Init]. *)
Definition supplied (T : CompoundType) (args : list pyvalue)
    (kwargs : list (string * pyvalue)) : result exn Instance :=
  self <- _SetDefaults T (fresh T) ;;
  self <- _Init_args T (GetFieldNames T) 0 args self ;;
  _Init_kwargs T kwargs self.

(** A well-formed compound descriptor: the field names are distinct, and
    none is the name of the bookkeeping attribute. *)
Definition wf_type (T : CompoundType) : Prop :=
  NoDup (GetFieldNames T) /\ "_assigned" ∉ GetFieldNames T.

(** The order in which a flag table can change: keys are kept, a set flag
    stays set (every successful assignment moves up in it). *)
Definition flags_le (a b : assigned_table) : Prop :=
  match a, b with
  | Flags m, Flags m' =>
      forall n, (is_Some (m !! n) -> is_Some (m' !! n)) /\ (m !! n = Some true -> m' !! n = Some true)
  | Flags _, Rebound _ => True
  | Rebound _, Flags _ => False
  | Rebound _, Rebound _ => True
  end.

(** All keys of a flag table are field names. *)
Definition keys_in (T : CompoundType) (m : gmap string bool) : Prop :=
  forall n, is_Some (m !! n) -> n ∈ GetFieldNames T.

(** The field names an error message mentions. *)
Definition named_in (e : exn) : list string :=
  match e with
  | AssertionError_Field name _ _ => [name]
  | AttributeError name => [name]
  | TypeError_Duplicate name => [name]
  | ValueError_Required name => [name]
  | KeyError name => [name]
  | AssertionError_InvalidConstructor | TypeError_subscript | IndexError => []
  end.

(** Two small schemas for the examples: a record of three required
    integers, and a record with one required and one optional field. *)
Definition T_abc : CompoundType :=
  {| fields := [("a", IntType); ("b", IntType); ("c", IntType)] |}.

Definition T_opt : CompoundType :=
  {| fields := [("name", StrType); ("opt", MaybeType IntType)] |}.

(** The registry [MakeTypes] builds from it, starting from an empty [root]. *)
Definition demo_root : gmap string pyobj :=
  match MakeTypes demo_module ∅ with
  | Ok root => root
  | Raise _ => ∅
  end.

End py_meta.

(** ** The precedence-climbing parser engine ([asdl/tdop.py]) *)

Module tdop.
Import py_meta.

(** Modelled from the spec: [tdop.Token] is defined outside the two source
    files; section 3 gives it a type and a value.  The value of a number
    token is an [int], that of every other token a [str]. *)
Record Token : Type := { type : string; val : pyvalue }.

Definition EOF_TOKEN : Token := {| type := "eof"; val := VStr "eof" |}.

(** Modelled from the spec: the node classes of the generated module
    [typed_arith_asdl] are not among the source files; these are the nodes
    the handlers build (sections 4.4 and 8), with the arguments in the order
    the handlers pass them.  A field filled from [token.val] holds that
    Python value as it is. *)
Inductive arith_expr : Type :=
| Const (i : pyvalue)
| ArithVar (name : pyvalue)
| ArithUnary (op : pyvalue) (a : arith_expr)
| ArithBinary (op : pyvalue) (left right : arith_expr)
| Ternary (cond true_expr false_expr : arith_expr)
| FuncCall (name : pyvalue) (args : list arith_expr)
| Index (a index : arith_expr)
| Slice (a begin end_ : arith_expr) (stride : option arith_expr).

Inductive parse_msg : Type :=
| UnexpectedToken (token_type : string)
| CantBePrefix (token : Token)
| CantBeInfix (token : Token)
| Expected (val : string) (got : Token)
| CantAssign (e : arith_expr)
| CantBeIndexed (e : arith_expr)
| CantBeCalled (e : arith_expr).

Inductive exn : Type :=
| ParseError (msg : parse_msg)
| AssertionError (what : string).

(** The parser object: the current token and the rest of the token stream. *)
Record Parser : Type := { token : Token; lexer : list Token }.

(** A method call on the parser returns a value and the parser it leaves
    behind, or raises, or exhausts the recursion budget of the model. *)
Inductive outcome (A : Type) : Type :=
| Done (a : A) (p : Parser)
| Raised (e : exn)
| OutOfFuel.
Arguments Done {A} a p.
Arguments Raised {A} e.
Arguments OutOfFuel {A}.

Definition M (A : Type) : Type := Parser -> outcome A.

Definition ret {A} (a : A) : M A := fun p => Done a p.

Definition raise {A} (e : exn) : M A := fun _ => Raised e.

Definition pbind {A B} (m : M A) (k : A -> M B) : M B :=
  fun p =>
    match m p with
    | Done a p' => k a p'
    | Raised e => Raised e
    | OutOfFuel => OutOfFuel
    end.

Declare Scope parser_scope.
Delimit Scope parser_scope with parser.
Notation "x <- m ;; k" := (pbind m (fun x => k))
  (at level 100, m at next level, right associativity) : parser_scope.
Notation "m ;;; k" := (pbind m (fun _ => k))
  (at level 100, right associativity) : parser_scope.
Local Open Scope parser_scope.

Definition current : M Token := fun p => Done (token p) p.

(** Modelled from the spec: the methods of [tdop.Parser], defined outside
    the two source files.  Section 4.3: a single-token lookahead over the
    token stream; past its end the current token is the end-of-input token. *)
Definition AtToken (token_type : string) : M bool :=
  fun p => Done (String.eqb (type (token p)) token_type) p.

Definition Next : M unit :=
  fun p =>
    match lexer p with
    | [] => Done tt {| token := EOF_TOKEN; lexer := [] |}
    | t :: rest => Done tt {| token := t; lexer := rest |}
    end.

(** Require the current token to be [val], then move past it. *)
Definition Eat (val : string) : M unit :=
  here <- AtToken val ;;
  if here then Next
  else (t <- current ;; raise (ParseError (Expected val t))).

(** What a handler sees of the parser it is called on: [p.ParseUntil], and
    the budget for a loop of its own. *)
Record ParserObj : Type := {
  ParseUntil_ : Z -> M arith_expr;
  gas : nat
}.

Definition NullFunc : Type := ParserObj -> Token -> Z -> M arith_expr.
Definition LeftFunc : Type := ParserObj -> Token -> arith_expr -> Z -> M arith_expr.

(** Modelled from the spec: [tdop.NullError] and the default left handler,
    defined outside the two source files; a token without a null handler
    fails at the start of an expression (section 4.3, step 1). *)
Definition NullError : NullFunc :=
  fun p token bp => raise (ParseError (CantBePrefix token)).

Definition LeftError : LeftFunc :=
  fun p token left rbp => raise (ParseError (CantBeInfix token)).

(** Modelled from the spec: [tdop.ParserSpec], defined outside the two
    source files.  Section 3: per token type a left binding power, a right
    binding power, an optional null handler and an optional left handler,
    compiled into a lookup table.  Section 4.3: a left-associative operator
    recurses with its own binding power, a right-associative one with its
    binding power minus one. *)
Record NullInfo : Type := { nud : NullFunc; bp : Z }.
Record LeftInfo : Type := { led : LeftFunc; lbp : Z; rbp : Z }.

Record ParserSpec : Type := {
  null_lookup : gmap string NullInfo;
  left_lookup : gmap string LeftInfo
}.

Definition empty_spec : ParserSpec := {| null_lookup := ∅; left_lookup := ∅ |}.

Definition Null_one (bp : Z) (nud : NullFunc) (spec : ParserSpec) (tok : string) : ParserSpec :=
  {| null_lookup := <[tok := {| nud := nud; bp := bp |}]> (null_lookup spec);
     left_lookup :=
       match left_lookup spec !! tok with
       | Some _ => left_lookup spec
       | None => <[tok := {| led := LeftError; lbp := 0; rbp := 0 |}]> (left_lookup spec)
       end |}.

Definition Null (bp : Z) (nud : NullFunc) (tokens : list string) (spec : ParserSpec)
  : ParserSpec :=
  foldl (Null_one bp nud) spec tokens.

Definition _RegisterLed_one (lbp rbp : Z) (led : LeftFunc) (spec : ParserSpec) (tok : string)
  : ParserSpec :=
  {| null_lookup :=
       match null_lookup spec !! tok with
       | Some _ => null_lookup spec
       | None => <[tok := {| nud := NullError; bp := 0 |}]> (null_lookup spec)
       end;
     left_lookup := <[tok := {| led := led; lbp := lbp; rbp := rbp |}]> (left_lookup spec) |}.

Definition _RegisterLed (lbp rbp : Z) (led : LeftFunc) (tokens : list string)
    (spec : ParserSpec) : ParserSpec :=
  foldl (_RegisterLed_one lbp rbp led) spec tokens.

Definition Left (bp : Z) (led : LeftFunc) (tokens : list string) (spec : ParserSpec)
  : ParserSpec :=
  _RegisterLed bp bp led tokens spec.

Definition LeftRightAssoc (bp : Z) (led : LeftFunc) (tokens : list string)
    (spec : ParserSpec) : ParserSpec :=
  _RegisterLed bp (bp - 1) led tokens spec.

Definition LookupNull (spec : ParserSpec) (token_type : string) : M NullInfo :=
  match null_lookup spec !! token_type with
  | Some info => ret info
  | None => raise (ParseError (UnexpectedToken token_type))
  end.

Definition LookupLeft (spec : ParserSpec) (token_type : string) : M LeftInfo :=
  match left_lookup spec !! token_type with
  | Some info => ret info
  | None => raise (ParseError (UnexpectedToken token_type))
  end.

(** Modelled from the spec: [Parser.ParseUntil], defined outside the two
    source files.  Section 4.3, steps 3 and 4: while the left binding power
    of the next token is strictly greater than [rbp], advance and call the
    left handler of that token on the expression so far. *)
Fixpoint ParseLoop (spec : ParserSpec) (p : ParserObj) (fuel : nat) (rbp : Z)
    (node : arith_expr) : M arith_expr :=
  match fuel with
  | O => fun _ => OutOfFuel
  | S fuel =>
      t <- current ;;
      left_info <- LookupLeft spec (type t) ;;
      if (lbp left_info <=? rbp)%Z then ret node
      else
        Next ;;;
        node <- led left_info p t node (tdop.rbp left_info) ;;
        ParseLoop spec p fuel rbp node
  end.

(** Steps 1 and 2: consume the current token and call its null handler. *)
Fixpoint ParseUntil (spec : ParserSpec) (fuel : nat) (rbp : Z) : M arith_expr :=
  match fuel with
  | O => fun _ => OutOfFuel
  | S fuel =>
      let p := {| ParseUntil_ := ParseUntil spec fuel; gas := fuel |} in
      t <- current ;;
      Next ;;;
      null_info <- LookupNull spec (type t) ;;
      node <- nud null_info p t (bp null_info) ;;
      ParseLoop spec p fuel rbp node
  end.

(** [Parser.Parse] on a parser just made from a token stream: the first
    [Next] sets the current token, which is unset until then. *)
Definition Parse (spec : ParserSpec) (fuel : nat) (tokens : list Token) : outcome arith_expr :=
  (Next ;;; ParseUntil spec fuel 0) {| token := EOF_TOKEN; lexer := tokens |}.

End tdop.

(** ** The handlers and the precedence table ([asdl/typed_arith_parse.py]) *)

Module typed_arith_parse.
Import py_meta tdop.
Local Open Scope parser_scope.

(** [isinstance(e, (arith_expr.ArithVar, arith_expr.Index))] *)
Definition is_ArithVar_or_Index (e : arith_expr) : bool :=
  match e with
  | ArithVar _ | Index _ _ => true
  | _ => false
  end.

(** [isinstance(e, arith_expr.ArithVar)] *)
Definition is_ArithVar (e : arith_expr) : bool :=
  match e with
  | ArithVar _ => true
  | _ => false
  end.

(** *** Null denotation *)

Definition NullConstant : NullFunc :=
  fun p token bp =>
    if String.eqb (type token) "number" then ret (Const (val token))
    else if String.eqb (type token) "name" then ret (ArithVar (val token))
    else raise (AssertionError (type token)).

Definition NullParen : NullFunc :=
  fun p token bp =>
    r <- ParseUntil_ p bp ;;
    Eat ")" ;;;
    ret r.

Definition NullPrefixOp : NullFunc :=
  fun p token bp =>
    r <- ParseUntil_ p bp ;;
    ret (ArithUnary (val token) r).

Definition NullIncDec : NullFunc :=
  fun p token bp =>
    right <- ParseUntil_ p bp ;;
    if negb (is_ArithVar_or_Index right) then raise (ParseError (CantAssign right))
    else ret (ArithUnary (val token) right).

(** *** Left denotation *)

(** The handler rebinds [token.type] and then reads [token.val]. *)
Definition LeftIncDec : LeftFunc :=
  fun p token left rbp =>
    if negb (is_ArithVar_or_Index left) then raise (ParseError (CantAssign left))
    else
      let token := {| type := "post" +:+ type token; val := val token |} in
      ret (ArithUnary (val token) left).

Definition LeftIndex : LeftFunc :=
  fun p token left unused_bp =>
    if negb (is_ArithVar left) then raise (ParseError (CantBeIndexed left))
    else
      index <- ParseUntil_ p 0 ;;
      colon <- AtToken ":" ;;
      end_ <- (if colon then (Next ;;; e <- ParseUntil_ p 0 ;; ret (Some e))
               else ret None) ;;
      Eat "]" ;;;
      match end_ with
      | Some end_ => ret (Slice left index end_ None)
      | None => ret (Index left index)
      end.

Definition LeftTernary : LeftFunc :=
  fun p token left bp =>
    true_expr <- ParseUntil_ p bp ;;
    Eat ":" ;;;
    false_expr <- ParseUntil_ p bp ;;
    ret (Ternary left true_expr false_expr).

Definition LeftBinaryOp : LeftFunc :=
  fun p token left rbp =>
    right <- ParseUntil_ p rbp ;;
    ret (ArithBinary (val token) left right).

Definition LeftAssign : LeftFunc :=
  fun p token left rbp =>
    if negb (is_ArithVar_or_Index left) then raise (ParseError (CantAssign left))
    else
      right <- ParseUntil_ p rbp ;;
      ret (ArithBinary (val token) left right).

Definition COMMA_PREC : Z := 1.

(** [while not p.AtToken(')')]: one argument per round, parsed up to
    [COMMA_PREC], and a comma after it skipped. *)
Fixpoint FuncCall_args (fuel : nat) (p : ParserObj) (args : list arith_expr)
  : M (list arith_expr) :=
  match fuel with
  | O => fun _ => OutOfFuel
  | S fuel =>
      close <- AtToken ")" ;;
      if close then ret args
      else
        arg <- ParseUntil_ p COMMA_PREC ;;
        comma <- AtToken "," ;;
        (if comma then Next else ret tt) ;;;
        FuncCall_args fuel p (args ++ [arg])%list
  end.

(** [left.name] of an [ArithVar]. *)
Definition name_of (left : arith_expr) : pyvalue :=
  match left with
  | ArithVar name => name
  | _ => VNone
  end.

Definition LeftFuncCall : LeftFunc :=
  fun p token left unused_bp =>
    if negb (is_ArithVar left) then raise (ParseError (CantBeCalled left))
    else
      let func_name := name_of left in
      args <- FuncCall_args (gas p) p [] ;;
      Eat ")" ;;;
      ret (FuncCall func_name args).

Definition MakeShellParserSpec : ParserSpec :=
  let spec := empty_spec in
  let spec := Left 31 LeftIncDec ["++"; "--"] spec in
  let spec := Left 31 LeftFuncCall ["("] spec in
  let spec := Left 31 LeftIndex ["["] spec in
  let spec := Null 29 NullIncDec ["++"; "--"] spec in
  let spec := Null 29 NullPrefixOp ["+"; "!"; "~"; "-"] spec in
  let spec := LeftRightAssoc 27 LeftBinaryOp ["**"] spec in
  let spec := Left 25 LeftBinaryOp ["*"; "/"; "%"] spec in
  let spec := Left 23 LeftBinaryOp ["+"; "-"] spec in
  let spec := Left 21 LeftBinaryOp ["<<"; ">>"] spec in
  let spec := Left 19 LeftBinaryOp ["<"; ">"; "<="; ">="] spec in
  let spec := Left 17 LeftBinaryOp ["!="; "=="] spec in
  let spec := Left 15 LeftBinaryOp ["&"] spec in
  let spec := Left 13 LeftBinaryOp ["^"] spec in
  let spec := Left 11 LeftBinaryOp ["|"] spec in
  let spec := Left 9 LeftBinaryOp ["&&"] spec in
  let spec := Left 7 LeftBinaryOp ["||"] spec in
  let spec := LeftRightAssoc 5 LeftTernary ["?"] spec in
  let spec := LeftRightAssoc 3 LeftAssign
                ["="; "+="; "-="; "*="; "/="; "%="; "<<="; ">>="; "&="; "^="; "|="] spec in
  let spec := Left COMMA_PREC LeftBinaryOp [","] spec in
  let spec := Null 0 NullParen ["("] spec in
  let spec := Null (-1) NullConstant ["name"; "number"] spec in
  let spec := Null (-1) NullError [")"; "]"; ":"; "eof"] spec in
  spec.

(** *** The entry points

    The lexer [tdop.Tokenize] and the display form of a tree are supplied
    from outside the two source files: they are parameters here. *)
Section EntryPoints.

Variable Tokenize : string -> list Token.
Variable repr : arith_expr -> string.

(** [MakeParser(s).Parse()], with the recursion budget of the model. *)
Definition ParseShell (fuel : nat) (s : string) : outcome arith_expr :=
  Parse MakeShellParserSpec fuel (Tokenize s).

(** What a run of [main] writes, in order, and how it ends. *)
Inductive output : Type :=
| Stdout (line : string)
| Stderr_parse_error (s : string) (e : parse_msg).

Inductive ending : Type :=
| Returns
| Raises_UnboundLocalError (var : string)
| Raises (e : exn)
| Diverges.

(** [print(tree)] after the inner [try]: [tree] is bound only when
    [ParseShell] returned. *)
Definition print_tree (tree : option arith_expr) (written : list output)
  : list output * ending :=
  match tree with
  | Some t => ((written ++ [Stdout (repr t)])%list, Returns)
  | None => (written, Raises_UnboundLocalError "tree")
  end.

Definition main (fuel : nat) (argv : list string) : list output * ending :=
  match argv !! 1%nat with
  | None => ([Stdout "Usage: ./arith_parse.py EXPRESSION"], Returns)
  | Some s =>
      match ParseShell fuel s with
      | Done tree _ => print_tree (Some tree) []
      | Raised (ParseError e) => print_tree None [Stderr_parse_error s e]
      | Raised e => ([], Raises e)
      | OutOfFuel => ([], Diverges)
      end
  end.

End EntryPoints.

(** *** Token streams of the examples *)

Definition number (n : Z) : Token := {| type := "number"; val := VInt n |}.
Definition ident (s : string) : Token := {| type := "name"; val := VStr s |}.
Definition op (s : string) : Token := {| type := s; val := VStr s |}.

End typed_arith_parse.

(** ** Vocabulary of the statements about the parser *)

Module parser_preds.
Import py_meta tdop typed_arith_parse.

(** The table of the shell grammar, and its parser on a token stream. *)
Definition parse (fuel : nat) (tokens : list Token) : outcome arith_expr :=
  Parse MakeShellParserSpec fuel tokens.

(** The parser after one token is consumed: what [Next] leaves behind. *)
Definition advance (st : Parser) : Parser :=
  match lexer st with
  | [] => {| token := EOF_TOKEN; lexer := [] |}
  | t :: rest => {| token := t; lexer := rest |}
  end.

(** The parser at the end of the input. *)
Definition at_eof : Parser := {| token := EOF_TOKEN; lexer := [] |}.

(** A run with less budget either stops for lack of it, or ends like the
    run with more. *)
Definition le_outcome {A} (o1 o2 : outcome A) : Prop :=
  o1 = OutOfFuel \/ o1 = o2.

Definition le_M {A} (m1 m2 : M A) : Prop :=
  forall st, le_outcome (m1 st) (m2 st).

Definition le_obj (p1 p2 : ParserObj) : Prop :=
  (forall rbp, le_M (ParseUntil_ p1 rbp) (ParseUntil_ p2 rbp)) /\ (gas p1 <= gas p2)%nat.

Definition mono_nud (f : NullFunc) : Prop :=
  forall p1 p2 token bp, le_obj p1 p2 -> le_M (f p1 token bp) (f p2 token bp).

Definition mono_led (f : LeftFunc) : Prop :=
  forall p1 p2 token left rbp, le_obj p1 p2 -> le_M (f p1 token left rbp) (f p2 token left rbp).

(** A property of every handler of a table, by the token type it is
    registered for. *)
Definition table_all (Pn : string -> NullFunc -> Prop) (Pl : string -> LeftFunc -> Prop)
    (spec : ParserSpec) : Prop :=
  (forall t info, null_lookup spec !! t = Some info -> Pn t (nud info)) /\
  (forall t info, left_lookup spec !! t = Some info -> Pl t (led info)).

Definition mono_spec (spec : ParserSpec) : Prop :=
  table_all (fun _ => mono_nud) (fun _ => mono_led) spec.

(** The tokens a parser has not consumed yet: those left in the stream,
    and the current one unless it marks the end of the input. *)
Definition remaining (st : Parser) : nat :=
  length (lexer st) + (if String.eqb (type (token st)) "eof" then 0 else 1).

(** A call that ends well: it returns without putting tokens back, or it
    raises a [ParseError]; it neither exhausts the budget nor trips an
    assertion.  [fine_lt]: and it consumed a token if it returned. *)
Definition fine {A} (st : Parser) (o : outcome A) : Prop :=
  match o with
  | Done _ st' => (remaining st' <= remaining st)%nat
  | Raised (ParseError _) => True
  | Raised (AssertionError _) => False
  | OutOfFuel => False
  end.

Definition fine_lt {A} (st : Parser) (o : outcome A) : Prop :=
  match o with
  | Done _ st' => (remaining st' < remaining st)%nat
  | Raised (ParseError _) => True
  | Raised (AssertionError _) => False
  | OutOfFuel => False
  end.

(** A parser object whose budget suffices for [n] remaining tokens. *)
Definition fine_obj (n : nat) (p : ParserObj) : Prop :=
  (forall bound st, (remaining st < n)%nat -> fine_lt st (ParseUntil_ p bound st)) /\
  (n <= gas p)%nat.

Definition fine_nud (t : string) (f : NullFunc) : Prop :=
  forall n p token bp st,
    fine_obj n p -> type token = t -> (remaining st < n)%nat -> fine st (f p token bp st).

Definition fine_led (t : string) (f : LeftFunc) : Prop :=
  forall n p token left bound st,
    fine_obj n p -> (remaining st < n)%nat -> fine st (f p token left bound st).

Definition fine_spec (spec : ParserSpec) : Prop :=
  table_all fine_nud fine_led spec.

(** At the end of the input the table has only the failing handlers. *)
Definition eof_fails (spec : ParserSpec) : Prop :=
  (exists bp, null_lookup spec !! "eof" = Some {| nud := NullError; bp := bp |}) /\
  (exists lbp rbp, left_lookup spec !! "eof" = Some {| led := LeftError; lbp := lbp; rbp := rbp |}).

(** A parser object that consumes one token and answers with the bound it
    was called with: it shows which bound a handler passes on. *)
Definition probe : ParserObj :=
  {| ParseUntil_ := fun rbp => pbind Next (fun _ => ret (Const (VInt rbp))); gas := 2 |}.

End parser_preds.

(** ** The rest of [py_meta]: the later check, class instances, [AssignTypes] *)

Module py_meta_more.
Import py_meta.
Local Open Scope result_scope.


(** Every value an instance holds conforms to the descriptor of its field. *)
Definition well_typed (T : CompoundType) (self : Instance) : Prop :=
  forall n v, __dict__ self !! n = Some v ->
    exists d, LookupFieldType T n = Some d /\ _CheckType v d = Ok true.

(** The instances a program works with: those [__init__] returned, and
    those a successful assignment to an attribute other than the flag table
    made of them. *)
Inductive reachable (T : CompoundType) : Instance -> Prop :=
| reach_init args kwargs self :
    __init__ T args kwargs = Ok self -> reachable T self
| reach_setattr self name v self' :
    reachable T self -> name ≠ "_assigned" ->
    __setattr__ T self name v = Ok self' -> reachable T self'.

(** The flag table and the values agree: the table has exactly the field
    names as keys, a field is flagged exactly when it holds a value, only
    fields hold values, and a field with a default always holds one. *)
Definition consistent (T : CompoundType) (self : Instance) : Prop :=
  exists m,
    _assigned self = Flags m /\
    (forall n, n ∈ GetFieldNames T ->
       m !! n = Some (bool_decide (is_Some (__dict__ self !! n)))) /\
    (forall n, n ∉ GetFieldNames T -> m !! n = None /\ __dict__ self !! n = None) /\
    (forall n d, (n, d) ∈ fields T -> default_value d ≠ None ->
       is_Some (__dict__ self !! n)).

(** The loop of [CheckUnassigned], appending to [unassigned] in the order of
    the fields. *)
Fixpoint CheckUnassigned_loop (T : CompoundType) (field_names : list string)
    (self : Instance) (unassigned : list string) : result exn (list string) :=
  match field_names with
  | [] => Ok unassigned
  | name :: rest =>
      a <- get_assigned self name ;;
      if a then CheckUnassigned_loop T rest self unassigned
      else
        match LookupFieldType T name with
        | None => Raise (KeyError name)
        | Some (MaybeType _) => CheckUnassigned_loop T rest self unassigned
        | Some _ => CheckUnassigned_loop T rest self (unassigned ++ [name])%list
        end
  end.

(** What [CheckUnassigned] ends in: nothing, its own [ValueError] with the
    collected names, or an exception of a dictionary access on the way. *)
Inductive check_exn : Type :=
| ValueError_unassigned (unassigned : list string)
| Lookup_failed (e : exn).

Definition CheckUnassigned (T : CompoundType) (self : Instance) : result check_exn unit :=
  match CheckUnassigned_loop T (GetFieldNames T) self [] with
  | Raise e => Raise (Lookup_failed e)
  | Ok [] => Ok tt
  | Ok unassigned => Raise (ValueError_unassigned unassigned)
  end.

(** The descriptor objects of a schema as [_CheckType] sees them: by
    identity, a sum with the identities of its constructors. *)
Definition desc_of_sum (sum_type : SumObj) : type_desc :=
  Sum (sum_oid sum_type) (is_simple sum_type) (cons_oid <$> types sum_type).

Definition desc_of_product (typ : ProductObj) : type_desc :=
  Product (prod_oid typ).

(** An instance of a class of the registry: its class name, and the
    identity of the [ASDL_TYPE] attribute of the class.  The base class of a
    compound sum and the tag enumeration have none of their own. *)
Definition instance_of (cls : pyobj) : pyvalue :=
  match cls with
  | SimpleClass class_name sum_type _ => VObj class_name (Some (sum_oid sum_type))
  | ConsClass class_name _ cons_ _ => VObj class_name (Some (cons_oid cons_))
  | ProductClass class_name typ => VObj class_name (Some (prod_oid typ))
  | BaseClass class_name => VObj class_name None
  | TagEnum enum_name _ => VObj enum_name None
  end.

(** A schema with a simple sum, and the registry [MakeTypes] builds from
    it. *)
Definition colour_sum : SumObj :=
  {| sum_oid := 10;
     types := [ {| cons_oid := 11; name := "Red"; cons_fields := [] |};
                {| cons_oid := 12; name := "Green"; cons_fields := [] |};
                {| cons_oid := 13; name := "Blue"; cons_fields := [] |} ] |}.

Definition colour_module : Module :=
  {| dfns := [ {| defn_name := "colour"; value := TSum colour_sum |} ] |}.

Definition colour_root : gmap string pyobj :=
  match MakeTypes colour_module ∅ with
  | Ok root => root
  | Raise _ => ∅
  end.

(** [name.startswith('__')] *)
Definition startswith (prefix s : string) : bool := String.prefix prefix s.

(** [AssignTypes]: every name of the source module that does not start
    with two underscores is bound in the destination to the value it has in
    the source.  The names of a module are distinct; the model walks them
    in the order of the map. *)
Definition AssignTypes {V : Type} (src_module dest_module : gmap string V) : gmap string V :=
  foldl (fun dest nv => if startswith "__" nv.1 then dest else <[nv.1 := nv.2]> dest)
        dest_module (map_to_list src_module).

End py_meta_more.

(** ** The operators of the shell grammar, by the handler that takes them *)

Module parser_more.
Import py_meta tdop typed_arith_parse.

(** The tokens registered with [LeftBinaryOp]. *)
Definition binary_ops : list string :=
  ["**"; "*"; "/"; "%"; "+"; "-"; "<<"; ">>"; "<"; ">"; "<="; ">="; "!="; "==";
   "&"; "^"; "|"; "&&"; "||"; ","].


(** The tokens registered with [NullPrefixOp], and with [NullIncDec]. *)
Definition prefix_ops : list string := ["+"; "!"; "~"; "-"].
Definition incdec_ops : list string := ["++"; "--"].

(** The binding powers the table gives a token in left position. *)
Definition lbp_of (t : string) : Z :=
  match left_lookup MakeShellParserSpec !! t with
  | Some info => lbp info
  | None => 0
  end.

Definition rbp_of (t : string) : Z :=
  match left_lookup MakeShellParserSpec !! t with
  | Some info => rbp info
  | None => 0
  end.

(** The token stream of an argument list: each argument a number, followed
    by a comma or not. *)
Definition arg_tokens (items : list (Z * bool)) : list Token :=
  flat_map (fun item : Z * bool => number item.1 :: if item.2 then [op ","] else []) items.

(** What follows an argument of [arg_tokens]: a comma, a number or the
    closing parenthesis. *)
Definition after_arg (t : Token) : Prop :=
  type t = "," \/ type t = "number" \/ type t = ")".

End parser_more.

(** * Properties of [py_meta] *)

Module py_meta_facts.
Import py_meta.
Local Open Scope result_scope.

(** ** Field tables *)

Lemma eqb_false_iff (a b : string) : String.eqb a b = false <-> a ≠ b.
Proof.
  destruct (String.eqb_spec a b); split; intros; congruence.
Qed.

Lemma assoc_NoDup name d fs :
  NoDup fs.*1 -> (name, d) ∈ fs -> assoc name fs = Some d.
Proof.
  induction fs as [|[n d'] fs IH]; simpl; intros Hnd Hin.
  - by apply elem_of_nil in Hin.
  - apply NoDup_cons in Hnd as [Hn Hnd].
    apply elem_of_cons in Hin as [[= -> ->]|Hin].
    + by rewrite String.eqb_refl.
    + destruct (String.eqb_spec name n) as [->|Hne]; [|auto].
      exfalso. apply Hn. apply list_elem_of_fmap. by exists (n, d).
Qed.

Lemma wf_lookup T name d :
  wf_type T -> (name, d) ∈ fields T -> LookupFieldType T name = Some d.
Proof. intros [Hnd _]. by apply assoc_NoDup. Qed.

Lemma wf_not_assigned T name :
  wf_type T -> name ∈ GetFieldNames T -> String.eqb name "_assigned" = false.
Proof.
  intros [_ Hna] Hin. apply eqb_false_iff. intros ->. by apply Hna.
Qed.

Lemma elem_names T name d : (name, d) ∈ fields T -> name ∈ GetFieldNames T.
Proof. intros. apply list_elem_of_fmap. by exists (name, d). Qed.

(** ** Assignment *)

Lemma default_value_checks d v : default_value d = Some v -> _CheckType v d = Ok true.
Proof.
  destruct d; simpl; try done; intros [= <-]; [|done].
  by destruct d.
Qed.

Lemma setattr_Flags T self m name d v :
  _assigned self = Flags m ->
  String.eqb name "_assigned" = false ->
  LookupFieldType T name = Some d ->
  _CheckType v d = Ok true ->
  __setattr__ T self name v =
    Ok {| _assigned := Flags (<[name:=true]> m); __dict__ := <[name:=v]> (__dict__ self) |}.
Proof.
  intros Hm Hne Hd Hc. unfold __setattr__, set_assigned.
  by rewrite Hne, Hd, Hc, Hm.
Qed.

Lemma flags_le_refl a : flags_le a a.
Proof. destruct a; simpl; auto. Qed.

Lemma flags_le_trans a b c : flags_le a b -> flags_le b c -> flags_le a c.
Proof.
  destruct a, b, c; simpl; try done.
  intros H1 H2 n. destruct (H1 n), (H2 n). split; auto.
Qed.

Lemma setattr_flags_le T self name v self' :
  __setattr__ T self name v = Ok self' -> flags_le (_assigned self) (_assigned self').
Proof.
  unfold __setattr__. destruct (String.eqb name "_assigned").
  - intros [= <-]. simpl. by destruct (_assigned self).
  - destruct (LookupFieldType T name); [|done]. simpl.
    destruct (_CheckType v t) as [[|]|]; simpl; try done.
    unfold set_assigned. destruct (_assigned self) as [m|] eqn:Hm; simpl; [|done].
    intros [= <-]. simpl. intros n. destruct (decide (name = n)) as [->|Hne].
    + rewrite lookup_insert_eq. split; eauto.
    + by rewrite lookup_insert_ne.
Qed.

Lemma fresh_flags_elem T n : n ∈ GetFieldNames T -> fresh_flags T !! n = Some false.
Proof.
  unfold fresh_flags. induction (GetFieldNames T) as [|f l IH]; intros Hn.
  - by apply elem_of_nil in Hn.
  - rewrite fmap_cons, list_to_map_cons. destruct (decide (f = n)) as [->|Hne].
    + by rewrite lookup_insert_eq.
    + rewrite lookup_insert_ne by done. apply elem_of_cons in Hn as [->|Hn]; [done|auto].
Qed.

Lemma fresh_flags_not_elem T n : n ∉ GetFieldNames T -> fresh_flags T !! n = None.
Proof.
  unfold fresh_flags. induction (GetFieldNames T) as [|f l IH]; intros Hn.
  - apply lookup_empty.
  - rewrite fmap_cons, list_to_map_cons. apply not_elem_of_cons in Hn as [Hne Hn].
    rewrite lookup_insert_ne by done. auto.
Qed.

Lemma SetDefaults_loop_spec T fs self m :
  wf_type T -> (forall x, x ∈ fs -> x ∈ fields T) -> NoDup fs.*1 ->
  _assigned self = Flags m ->
  exists m' dict',
    _SetDefaults_loop T fs self = Ok {| _assigned := Flags m'; __dict__ := dict' |} /\
    (forall n, n ∉ fs.*1 -> m' !! n = m !! n /\ dict' !! n = __dict__ self !! n) /\
    (forall n d, (n, d) ∈ fs ->
       match default_value d with
       | Some v => m' !! n = Some true /\ dict' !! n = Some v
       | None => m' !! n = m !! n /\ dict' !! n = __dict__ self !! n
       end).
Proof.
  intros Hwf. revert self m.
  induction fs as [|[n0 d0] fs IH]; intros self m Hsub Hnd Hm; simpl.
  - exists m, (__dict__ self). split; [destruct self; simpl in *; by subst|].
    split; [done|]. intros n d Hin. by apply elem_of_nil in Hin.
  - simpl in Hnd. apply NoDup_cons in Hnd as [Hn0 Hnd].
    assert (Hsub' : forall x, x ∈ fs -> x ∈ fields T) by (intros; apply Hsub; by right).
    assert (Hin0 : (n0, d0) ∈ fields T) by (apply Hsub; left).
    destruct (default_value d0) as [v0|] eqn:Hdef.
    + rewrite (setattr_Flags T self m n0 d0 v0 Hm);
        [|by eapply wf_not_assigned; [|eapply elem_names]|by apply wf_lookup
         |by apply default_value_checks].
      simpl.
      destruct (IH {| _assigned := Flags (<[n0:=true]> m);
                      __dict__ := <[n0:=v0]> (__dict__ self) |} (<[n0:=true]> m) Hsub' Hnd eq_refl)
        as (m' & dict' & Hrun & Hout & Hin).
      exists m', dict'. split; [done|]. simpl in *. split.
      * intros n Hn. apply not_elem_of_cons in Hn as [Hne Hn].
        destruct (Hout n Hn) as [-> ->]. by rewrite !lookup_insert_ne.
      * intros n d [[= -> ->]|Hd]%elem_of_cons.
        -- rewrite Hdef. destruct (Hout n0 Hn0) as [-> ->]. by rewrite !lookup_insert_eq.
        -- specialize (Hin n d Hd). destruct (default_value d); [done|].
           assert (n0 ≠ n) by (intros ->; apply Hn0; apply list_elem_of_fmap; by exists (n, d)).
           destruct Hin as [-> ->]. by rewrite !lookup_insert_ne.
    + destruct (IH self m Hsub' Hnd Hm) as (m' & dict' & Hrun & Hout & Hin).
      exists m', dict'. split; [done|]. split.
      * intros n Hn. apply not_elem_of_cons in Hn as [Hne Hn]. auto.
      * intros n d [[= -> ->]|Hd]%elem_of_cons; [|by apply Hin].
        rewrite Hdef. auto.
Qed.

(** [_SetDefaults] on a fresh instance of a well-formed type never raises:
    the fields with a default are stored and flagged, the others are not. *)
Lemma SetDefaults_fresh T :
  wf_type T ->
  exists m dict,
    _SetDefaults T {| _assigned := Flags (fresh_flags T); __dict__ := ∅ |} =
      Ok {| _assigned := Flags m; __dict__ := dict |} /\
    (forall n, n ∉ GetFieldNames T -> m !! n = None) /\
    (forall n d, (n, d) ∈ fields T ->
       match default_value d with
       | Some v => m !! n = Some true /\ dict !! n = Some v
       | None => m !! n = Some false /\ dict !! n = None
       end).
Proof.
  intros Hwf.
  destruct (SetDefaults_loop_spec T (fields T)
              {| _assigned := Flags (fresh_flags T); __dict__ := ∅ |} (fresh_flags T))
    as (m & dict & Hrun & Hout & Hin); auto.
  { apply Hwf. }
  exists m, dict. split; [exact Hrun|]. split.
  - intros n Hn. destruct (Hout n Hn) as [-> _]. by apply fresh_flags_not_elem.
  - intros n d Hd. specialize (Hin n d Hd). destruct (default_value d); [done|].
    destruct Hin as [-> ->]. simpl. rewrite lookup_empty.
    split; [|done]. eauto using fresh_flags_elem, elem_names.
Qed.

(** The required-field loop stops at the first name whose flag is unset. *)
Lemma Init_required_first names self m :
  _assigned self = Flags m ->
  (forall n, n ∈ names -> is_Some (m !! n)) ->
  ((forall n, n ∈ names -> m !! n = Some true) /\ _Init_required names self = Ok tt) \/
  (exists pre first post,
     names = (pre ++ first :: post)%list /\
     (forall n, n ∈ pre -> m !! n = Some true) /\
     m !! first = Some false /\
     _Init_required names self = Raise (ValueError_Required first)).
Proof.
  intros Hm. induction names as [|n names IH]; intros Hkeys; simpl.
  - left. split; [|done]. intros n Hn. by apply elem_of_nil in Hn.
  - unfold get_assigned. rewrite Hm.
    destruct (Hkeys n) as [[|] Hb]; [left| |]; rewrite Hb; simpl.
    + destruct IH as [[Hall Hrun]|(pre & first & post & -> & Hpre & Hfirst & Hrun)].
      { intros; apply Hkeys; by right. }
      * left. split; [|done]. intros n' [->|?]%elem_of_cons; auto.
      * right. exists (n :: pre), first, post. repeat split; auto.
        intros n' [->|?]%elem_of_cons; auto.
    + right. exists [], n, names. repeat split; auto.
      intros n' Hn'. by apply elem_of_nil in Hn'.
Qed.

Lemma SetDefaults_loop_le T fs self self' :
  _SetDefaults_loop T fs self = Ok self' -> flags_le (_assigned self) (_assigned self').
Proof.
  revert self. induction fs as [|[n d] fs IH]; intros self; simpl.
  - intros [= <-]. apply flags_le_refl.
  - destruct (default_value d); [|apply IH].
    destruct (__setattr__ T self n p) as [s1|] eqn:Hs; simpl; [|done].
    intros Hrun. eapply flags_le_trans; eauto using setattr_flags_le.
Qed.

Lemma Init_args_le T names i args self self' :
  _Init_args T names i args self = Ok self' -> flags_le (_assigned self) (_assigned self').
Proof.
  revert i self. induction args as [|v args IH]; intros i self; simpl.
  - intros [= <-]. apply flags_le_refl.
  - destruct (names !! i); [|done].
    destruct (__setattr__ T self s v) as [s1|] eqn:Hs; simpl; [|done].
    intros Hrun. eapply flags_le_trans; eauto using setattr_flags_le.
Qed.

Lemma Init_kwargs_le T kwargs self self' :
  _Init_kwargs T kwargs self = Ok self' -> flags_le (_assigned self) (_assigned self').
Proof.
  revert self. induction kwargs as [|[n v] kwargs IH]; intros self; simpl.
  - intros [= <-]. apply flags_le_refl.
  - destruct (get_assigned self n) as [[|]|]; simpl; try done.
    destruct (__setattr__ T self n v) as [s1|] eqn:Hs; simpl; [|done].
    intros Hrun. eapply flags_le_trans; eauto using setattr_flags_le.
Qed.

(** ** The three phases of a construction with values *)

Lemma init_no_values T :
  __init__ T [] [] = _SetDefaults T (fresh T).
Proof. unfold __init__, fresh. simpl. by destruct (_SetDefaults _ _). Qed.

Lemma init_supplied T args kwargs :
  args ≠ [] \/ kwargs ≠ [] ->
  __init__ T args kwargs =
    (self <- supplied T args kwargs ;;
     _Init_required (GetFieldNames T) self ;;;
     Ok self).
Proof.
  intros Hne. unfold __init__, supplied, fresh, _Init.
  assert (negb (is_nil args) || negb (is_nil kwargs) = true) as ->.
  { destruct args, kwargs; simpl; try done. by destruct Hne. }
  destruct (_SetDefaults _ _) as [s0|]; simpl; [|done].
  by destruct (_Init_args _ _ _ _ _) as [s1|].
Qed.

Lemma supplied_le T args kwargs self :
  supplied T args kwargs = Ok self ->
  flags_le (Flags (fresh_flags T)) (_assigned self).
Proof.
  unfold supplied, _SetDefaults.
  destruct (_SetDefaults_loop _ _ _) as [s0|] eqn:H0; simpl; [|done].
  destruct (_Init_args _ _ _ _ _) as [s1|] eqn:H1; simpl; [|done].
  intros H2.
  apply SetDefaults_loop_le in H0. apply Init_args_le in H1. apply Init_kwargs_le in H2.
  unfold fresh in H0.
  exact (flags_le_trans _ _ _ (flags_le_trans _ _ _ H0 H1) H2).
Qed.

Lemma Init_kwargs_app T pre post self :
  _Init_kwargs T (pre ++ post) self =
    (self <- _Init_kwargs T pre self ;; _Init_kwargs T post self).
Proof.
  revert self. induction pre as [|[n v] pre IH]; intros self; simpl; [done|].
  destruct (get_assigned self n) as [[|]|]; simpl; try done.
  destruct (__setattr__ T self n v); simpl; auto.
Qed.

Lemma supplied_app T args pre post :
  supplied T args (pre ++ post) =
    (self <- supplied T args pre ;; _Init_kwargs T post self).
Proof.
  unfold supplied.
  destruct (_SetDefaults _ _) as [s0|]; simpl; [|done].
  destruct (_Init_args _ _ _ _ _) as [s1|]; simpl; [|done].
  apply Init_kwargs_app.
Qed.

(** On a well-formed type an assignment to a declared field keeps the flag
    table a table, and touches one key. *)
Lemma setattr_wf T self m name v self' :
  wf_type T -> _assigned self = Flags m -> name ∈ GetFieldNames T ->
  __setattr__ T self name v = Ok self' ->
  _assigned self' = Flags (<[name:=true]> m).
Proof.
  intros Hwf Hm Hin. unfold __setattr__, set_assigned.
  rewrite (wf_not_assigned T name Hwf Hin), Hm.
  destruct (LookupFieldType T name); [|done]. simpl.
  destruct (_CheckType v t) as [[|]|]; simpl; try done.
  by intros [= <-].
Qed.

Lemma keys_in_insert T m name :
  keys_in T m -> name ∈ GetFieldNames T -> keys_in T (<[name:=true]> m).
Proof.
  intros Hk Hin n. destruct (decide (name = n)) as [->|Hne]; [done|].
  rewrite lookup_insert_ne by done. apply Hk.
Qed.

Lemma SetDefaults_fresh_keys T m dict :
  wf_type T ->
  _SetDefaults T (fresh T) = Ok {| _assigned := Flags m; __dict__ := dict |} ->
  keys_in T m /\
  forall n d, (n, d) ∈ fields T -> m !! n = Some (bool_decide (default_value d ≠ None)).
Proof.
  intros Hwf Hrun. destruct (SetDefaults_fresh T Hwf) as (m0 & dict0 & Hrun0 & Hout & Hin).
  unfold fresh in Hrun. rewrite Hrun0 in Hrun. injection Hrun as <- <-. split.
  - intros n Hn. destruct (decide (n ∈ GetFieldNames T)) as [|Hno]; [done|].
    rewrite (Hout n Hno) in Hn. by destruct Hn.
  - intros n d Hd. specialize (Hin n d Hd). destruct (default_value d); by destruct Hin as [-> _].
Qed.

Lemma Init_args_wf T i args self m self' :
  wf_type T -> _assigned self = Flags m -> keys_in T m ->
  _Init_args T (GetFieldNames T) i args self = Ok self' ->
  exists m', _assigned self' = Flags m' /\ keys_in T m' /\
    forall n, m' !! n =
      if bool_decide (n ∈ take (length args) (drop i (GetFieldNames T)))
      then Some true else m !! n.
Proof.
  intros Hwf. revert i self m.
  induction args as [|v args IH]; intros i self m Hm Hk; simpl.
  - intros [= <-]. exists m. repeat split; auto.
  - destruct (GetFieldNames T !! i) as [name|] eqn:Hi; [|done].
    assert (Hname : name ∈ GetFieldNames T) by (by eapply list_elem_of_lookup_2).
    destruct (__setattr__ T self name v) as [s1|] eqn:Hs; simpl; [|done].
    intros Hrun.
    pose proof (setattr_wf _ _ _ _ _ _ Hwf Hm Hname Hs) as Hm1.
    destruct (IH (S i) s1 _ Hm1 (keys_in_insert _ _ _ Hk Hname) Hrun) as (m' & Hm' & Hk' & Hl).
    exists m'. repeat split; auto. intros n. rewrite Hl.
    rewrite (drop_S _ _ _ Hi). simpl.
    destruct (decide (n = name)) as [->|Hne].
    + rewrite (bool_decide_eq_true_2 (name ∈ name :: _)) by left.
      rewrite lookup_insert_eq. by destruct (bool_decide _).
    + rewrite lookup_insert_ne by done.
      destruct (bool_decide (n ∈ take (length args) (drop (S i) (GetFieldNames T)))) eqn:Hb.
      * apply bool_decide_eq_true in Hb. rewrite bool_decide_eq_true_2; [done|by right].
      * apply bool_decide_eq_false in Hb. rewrite bool_decide_eq_false_2; [done|].
        intros [?|?]%elem_of_cons; done.
Qed.

Lemma Init_kwargs_wf T kwargs self m self' :
  wf_type T -> _assigned self = Flags m -> keys_in T m ->
  _Init_kwargs T kwargs self = Ok self' ->
  exists m', _assigned self' = Flags m' /\ keys_in T m' /\
    forall n, m' !! n = if bool_decide (n ∈ kwargs.*1) then Some true else m !! n.
Proof.
  intros Hwf. revert self m.
  induction kwargs as [|[name v] kwargs IH]; intros self m Hm Hk; simpl.
  - intros [= <-]. exists m. repeat split; auto.
  - unfold get_assigned. rewrite Hm. destruct (m !! name) as [[|]|] eqn:Hb; simpl; try done.
    assert (Hname : name ∈ GetFieldNames T) by (apply Hk; by rewrite Hb).
    destruct (__setattr__ T self name v) as [s1|] eqn:Hs; simpl; [|done].
    intros Hrun.
    pose proof (setattr_wf _ _ _ _ _ _ Hwf Hm Hname Hs) as Hm1.
    destruct (IH s1 _ Hm1 (keys_in_insert _ _ _ Hk Hname) Hrun) as (m' & Hm' & Hk' & Hl).
    exists m'. repeat split; auto. intros n. rewrite Hl.
    destruct (decide (n = name)) as [->|Hne].
    + rewrite (bool_decide_eq_true_2 (name ∈ name :: _)) by left.
      rewrite lookup_insert_eq. by destruct (bool_decide _).
    + rewrite lookup_insert_ne by done.
      destruct (bool_decide (n ∈ kwargs.*1)) eqn:Hb'.
      * apply bool_decide_eq_true in Hb'. rewrite bool_decide_eq_true_2; [done|by right].
      * apply bool_decide_eq_false in Hb'. rewrite bool_decide_eq_false_2; [done|].
        intros [?|?]%elem_of_cons; done.
Qed.

(** After the supplied values are applied, a field is flagged exactly when
    it has a default, or was given by position, or was given by name. *)
Lemma supplied_flags T args kwargs self :
  wf_type T -> supplied T args kwargs = Ok self ->
  forall n d, (n, d) ∈ fields T ->
    get_assigned self n =
      Ok (bool_decide (default_value d ≠ None) ||
          bool_decide (n ∈ take (length args) (GetFieldNames T)) ||
          bool_decide (n ∈ kwargs.*1)).
Proof.
  intros Hwf. unfold supplied.
  destruct (_SetDefaults T (fresh T)) as [[a0 d0]|] eqn:H0; simpl; [|done].
  destruct (SetDefaults_fresh T Hwf) as (m0 & dict0 & Hrun0 & _).
  unfold fresh in H0. rewrite Hrun0 in H0. injection H0 as <- <-.
  destruct (SetDefaults_fresh_keys T m0 dict0 Hwf Hrun0) as [Hk0 Hl0].
  destruct (_Init_args _ _ _ _ _) as [s1|] eqn:H1; simpl; [|done].
  intros H2.
  destruct (Init_args_wf T 0 args {| _assigned := Flags m0; __dict__ := dict0 |} m0 s1
              Hwf eq_refl Hk0 H1) as (m1 & Hm1 & Hk1 & Hl1).
  destruct (Init_kwargs_wf _ _ _ _ _ Hwf Hm1 Hk1 H2) as (m2 & Hm2 & Hk2 & Hl2).
  intros n d Hd. unfold get_assigned. rewrite Hm2, Hl2, Hl1, (Hl0 n d Hd). rewrite drop_0.
  destruct (bool_decide (n ∈ kwargs.*1)), (bool_decide (n ∈ take _ _)),
    (bool_decide (default_value d ≠ None)); done.
Qed.

End py_meta_facts.

(** * Stated properties of [py_meta] *)

Module py_meta_claims.
Import py_meta py_meta_facts.
Local Open Scope result_scope.

Lemma T_abc_wf : wf_type T_abc.
Proof. split; by apply (bool_decide_unpack _). Defined.

Lemma T_opt_wf : wf_type T_opt.
Proof. split; by apply (bool_decide_unpack _). Defined.

(** ** C2: the primitive descriptors *)



(** ** C9: construction without values *)

(** C9.  With no positional and no named value the constructor returns an
    instance and never runs the required-field loop: every field that is
    neither [Maybe] nor [Array] is unflagged and has no value, although the
    loop, had it run on that instance, would have raised. *)
Theorem Construct_no_values (T : CompoundType) :
  wf_type T ->
  exists self,
    __init__ T [] [] = Ok self /\
    (forall name desc, (name, desc) ∈ fields T -> default_value desc = None ->
       get_assigned self name = Ok false /\ __dict__ self !! name = None) /\
    (forall name desc, (name, desc) ∈ fields T -> default_value desc = None ->
       exists first, _Init_required (GetFieldNames T) self = Raise (ValueError_Required first)).
Proof.
  intros Hwf. destruct (SetDefaults_fresh T Hwf) as (m & dict & Hrun & Hout & Hin).
  exists {| _assigned := Flags m; __dict__ := dict |}.
  rewrite init_no_values. split; [exact Hrun|].
  assert (Hunset : forall name desc, (name, desc) ∈ fields T -> default_value desc = None ->
            m !! name = Some false /\ dict !! name = None).
  { intros name desc Hd Hdef. specialize (Hin name desc Hd). by rewrite Hdef in Hin. }
  split.
  - intros name desc Hd Hdef. destruct (Hunset name desc Hd Hdef) as [Hm Hv].
    unfold get_assigned. simpl. by rewrite Hm.
  - intros name desc Hd Hdef. destruct (Hunset name desc Hd Hdef) as [Hm _].
    destruct (Init_required_first (GetFieldNames T) {| _assigned := Flags m; __dict__ := dict |} m)
      as [[Hall _]|(pre & first & post & _ & _ & _ & Hraise)]; [done| | |by exists first].
    + intros n [[n' d'] [-> Hd']]%list_elem_of_fmap. specialize (Hin n' d' Hd').
      simpl. destruct (default_value d'); destruct Hin as [-> _]; eauto.
    + rewrite (Hall name) in Hm by eauto using elem_names. discriminate.
Qed.

Lemma Construct_no_values_witness :
  wf_type T_abc /\
  exists self,
    __init__ T_abc [] [] = Ok self /\
    (forall name desc, (name, desc) ∈ fields T_abc -> default_value desc = None ->
       get_assigned self name = Ok false /\ __dict__ self !! name = None) /\
    (forall name desc, (name, desc) ∈ fields T_abc -> default_value desc = None ->
       exists first,
         _Init_required (GetFieldNames T_abc) self = Raise (ValueError_Required first)).
Proof. split; [exact T_abc_wf|exact (Construct_no_values T_abc T_abc_wf)]. Defined.

(** ** C1: the required-field check *)

(** C1, as the code has it.  When at least one value is given and the
    defaults and all supplied values have been applied, a field whose flag
    is still unset makes the construction raise the required-field error,
    and that error names one field: the first unflagged one in declaration
    order. *)
Theorem Construct_missing_names_first (T : CompoundType) (args : list pyvalue)
    (kwargs : list (string * pyvalue)) (self : Instance) (name : string) :
  args ≠ [] \/ kwargs ≠ [] ->
  supplied T args kwargs = Ok self ->
  name ∈ GetFieldNames T ->
  get_assigned self name = Ok false ->
  exists pre first post,
    GetFieldNames T = (pre ++ first :: post)%list /\
    (forall n, n ∈ pre -> get_assigned self n = Ok true) /\
    get_assigned self first = Ok false /\
    __init__ T args kwargs = Raise (ValueError_Required first) /\
    named_in (ValueError_Required first) = [first].
Proof.
  intros Hne Hsup Hname Hflag. rewrite (init_supplied T args kwargs Hne), Hsup. simpl.
  pose proof (supplied_le _ _ _ _ Hsup) as Hle.
  unfold get_assigned in Hflag |- *.
  destruct (_assigned self) as [m|] eqn:Hm; [|done]. simpl in Hle.
  destruct (Init_required_first (GetFieldNames T) self m Hm)
    as [[Hall _]|(pre & first & post & Hsplit & Hpre & Hfirst & Hraise)].
  - intros n Hn. apply Hle. rewrite (fresh_flags_elem T n Hn). eauto.
  - rewrite (Hall name Hname) in Hflag. discriminate.
  - exists pre, first, post. rewrite Hraise, Hfirst. repeat split; auto.
    intros n Hn. by rewrite (Hpre n Hn).
Qed.

Lemma Construct_missing_names_first_witness :
  exists self,
    supplied T_abc [VInt 1] [] = Ok self /\
    exists pre first post,
      GetFieldNames T_abc = (pre ++ first :: post)%list /\
      (forall n, n ∈ pre -> get_assigned self n = Ok true) /\
      get_assigned self first = Ok false /\
      __init__ T_abc [VInt 1] [] = Raise (ValueError_Required first) /\
      named_in (ValueError_Required first) = [first].
Proof.
  eexists. split; [vm_compute; reflexivity|].
  apply (Construct_missing_names_first T_abc [VInt 1] [] _ "c").
  - left. discriminate.
  - vm_compute. reflexivity.
  - by apply (bool_decide_unpack _).
  - vm_compute. reflexivity.
Defined.

(** The field a required-field error names is a field without a default
    that was given neither by position nor by name, and every such field is
    unflagged. *)
Lemma unassigned_iff_omitted T args kwargs self n d :
  wf_type T -> supplied T args kwargs = Ok self -> (n, d) ∈ fields T ->
  get_assigned self n = Ok false <->
  default_value d = None /\ (n ∉ take (length args) (GetFieldNames T)) /\ (n ∉ kwargs.*1).
Proof.
  intros Hwf Hsup Hd. rewrite (supplied_flags T args kwargs self Hwf Hsup n d Hd).
  split.
  - intros [= H]. apply orb_false_iff in H as [H Hk]. apply orb_false_iff in H as [Hdef Hp].
    apply bool_decide_eq_false in Hdef, Hp, Hk. repeat split; auto.
    destruct (default_value d); [|done]. by destruct Hdef.
  - intros (Hdef & Hp & Hk). f_equal.
    rewrite (bool_decide_eq_false_2 _ Hp), (bool_decide_eq_false_2 _ Hk).
    rewrite bool_decide_eq_false_2; [done|]. rewrite Hdef. by intros [].
Qed.

(** C1 as stated fails: with [a] given, both [b] and [c] are missing, and
    the error names [b] only. *)
Lemma Construct_names_only_first_missing :
  exists self,
    supplied T_abc [VInt 1] [] = Ok self /\
    get_assigned self "b" = Ok false /\
    get_assigned self "c" = Ok false /\
    __init__ T_abc [VInt 1] [] = Raise (ValueError_Required "b") /\
    "c" ∉ named_in (ValueError_Required "b").
Proof.
  eexists. split; [vm_compute; reflexivity|].
  repeat split; try (vm_compute; reflexivity).
  by apply (bool_decide_unpack _).
Qed.

(** [CheckUnassigned], the later check of the same flags, does collect
    every missing name. *)
Example CheckUnassigned_lists_all :
  exists self,
    supplied T_abc [VInt 1] [] = Ok self /\
    unassigned_names T_abc (GetFieldNames T_abc) self = Ok ["b"; "c"].
Proof. eexists. split; vm_compute; reflexivity. Qed.

(** ** C10: more positional values than fields *)


Lemma Init_args_too_many_fails T names i args self :
  (i <= length names)%nat -> (length names < i + length args)%nat ->
  is_ok (_Init_args T names i args self) = false.
Proof.
  revert i self. induction args as [|v args IH]; intros i self Hi Hlen; simpl in *; [lia|].
  destruct (names !! i) as [name|] eqn:Hn; [|done].
  destruct (__setattr__ T self name v) as [s1|]; simpl; [|done].
  apply IH; [|lia]. apply lookup_lt_Some in Hn. lia.
Qed.

(** Whatever the values are, a construction with more positional values
    than fields does not return an instance. *)
Lemma Construct_too_many_fails T args kwargs :
  (length (fields T) < length args)%nat -> is_ok (__init__ T args kwargs) = false.
Proof.
  intros Hlen. unfold __init__.
  destruct (_SetDefaults _ _) as [s0|]; simpl; [|done].
  destruct args as [|v args]; [simpl in Hlen; lia|]. simpl negb. simpl orb. cbv iota.
  unfold _Init.
  pose proof (Init_args_too_many_fails T (GetFieldNames T) 0 (v :: args) s0) as Hf.
  destruct (_Init_args _ _ _ _ _); simpl; [|done].
  simpl in Hf. exfalso. assert (true = false); [|done].
  apply Hf; [lia|]. unfold GetFieldNames. rewrite length_fmap. simpl in Hlen. lia.
Qed.




(** ** Accepted constructions *)

Lemma Init_args_conform T i args self m :
  wf_type T -> _assigned self = Flags m ->
  (i + length args <= length (fields T))%nat ->
  (forall j name d v, fields T !! (i + j)%nat = Some (name, d) -> args !! j = Some v ->
     _CheckType v d = Ok true) ->
  exists self', _Init_args T (GetFieldNames T) i args self = Ok self'.
Proof.
  intros Hwf. revert i self m.
  induction args as [|v args IH]; intros i self m Hm Hlen Hconf; simpl in *; [eauto|].
  unfold GetFieldNames at 1. rewrite list_lookup_fmap.
  destruct (fields T !! i) as [[name d]|] eqn:Hf; simpl.
  - assert (Hd : (name, d) ∈ fields T) by (by eapply list_elem_of_lookup_2).
    rewrite (setattr_Flags T self m name d v Hm);
      [|by eapply wf_not_assigned; [|eapply elem_names]|by apply wf_lookup|].
    + simpl. apply (IH (S i) _ (<[name:=true]> m)); [done|lia|].
      intros j name' d' v' Hf' Hv'. apply (Hconf (S j) name' d' v'); [|done].
      by replace (i + S j)%nat with (S i + j)%nat by lia.
    + apply (Hconf 0%nat name d v); [|done]. by rewrite Nat.add_0_r.
  - apply lookup_ge_None in Hf. lia.
Qed.

Lemma Init_kwargs_conform T kwargs self m :
  wf_type T -> _assigned self = Flags m ->
  NoDup kwargs.*1 ->
  (forall n v, (n, v) ∈ kwargs ->
     exists d, (n, d) ∈ fields T /\ m !! n = Some false /\ _CheckType v d = Ok true) ->
  exists self', _Init_kwargs T kwargs self = Ok self'.
Proof.
  intros Hwf. revert self m.
  induction kwargs as [|[name v] kwargs IH]; intros self m Hm Hnd Hconf; simpl; [eauto|].
  rewrite fmap_cons in Hnd. apply NoDup_cons in Hnd as [Hname Hnd].
  destruct (Hconf name v) as (d & Hd & Hflag & Hcheck); [left|].
  unfold get_assigned. rewrite Hm, Hflag. simpl.
  rewrite (setattr_Flags T self m name d v Hm);
    [|by eapply wf_not_assigned; [|eapply elem_names]|by apply wf_lookup|done].
  simpl. apply (IH _ (<[name:=true]> m)); [done|done|].
  intros n' v' Hin. destruct (Hconf n' v') as (d' & Hd' & Hflag' & Hcheck'); [by right|].
  exists d'. repeat split; auto. rewrite lookup_insert_ne; [done|].
  intros ->. apply Hname. apply list_elem_of_fmap. by exists (n', v').
Qed.

(** Fields are accepted by position, by name, or both: the construction
    returns an instance when the positional values conform to the leading
    fields, the named values conform to their fields, each named field has
    no default and is named once and not also given by position, and every
    field without a default is covered. *)
Lemma Construct_accepts T args kwargs :
  wf_type T ->
  (length args <= length (fields T))%nat ->
  (forall i name d v, fields T !! i = Some (name, d) -> args !! i = Some v ->
     _CheckType v d = Ok true) ->
  NoDup kwargs.*1 ->
  (forall n v, (n, v) ∈ kwargs ->
     exists d, (n, d) ∈ fields T /\ default_value d = None /\
               (n ∉ take (length args) (GetFieldNames T)) /\ _CheckType v d = Ok true) ->
  (forall n d, (n, d) ∈ fields T ->
     default_value d ≠ None \/ n ∈ take (length args) (GetFieldNames T) \/ n ∈ kwargs.*1) ->
  exists self, __init__ T args kwargs = Ok self.
Proof.
  intros Hwf Hlen Hargs Hnd Hkw Hcover.
  destruct (SetDefaults_fresh T Hwf) as (m0 & dict0 & Hrun0 & _).
  destruct (SetDefaults_fresh_keys T m0 dict0 Hwf Hrun0) as [Hk0 Hl0].
  destruct (Init_args_conform T 0 args {| _assigned := Flags m0; __dict__ := dict0 |} m0
              Hwf eq_refl) as [s1 Hrun1]; [simpl; lia|intros j; apply Hargs|].
  destruct (Init_args_wf T 0 args {| _assigned := Flags m0; __dict__ := dict0 |} m0 s1
              Hwf eq_refl Hk0 Hrun1) as (m1 & Hm1 & Hk1 & Hl1).
  rewrite drop_0 in Hl1.
  destruct (Init_kwargs_conform T kwargs s1 m1 Hwf Hm1 Hnd) as [s2 Hrun2].
  { intros n v Hin. destruct (Hkw n v Hin) as (d & Hd & Hdef & Hpos & Hcheck).
    exists d. repeat split; auto. rewrite Hl1, (bool_decide_eq_false_2 _ Hpos), (Hl0 n d Hd).
    f_equal. apply bool_decide_eq_false_2. by rewrite Hdef; intros []. }
  assert (Hsup : supplied T args kwargs = Ok s2).
  { unfold supplied, fresh. rewrite Hrun0. simpl. rewrite Hrun1. simpl. exact Hrun2. }
  destruct (decide (args = [] /\ kwargs = [])) as [[-> ->]|Hne].
  - rewrite init_no_values. unfold fresh. rewrite Hrun0. eauto.
  - rewrite init_supplied, Hsup by (destruct args, kwargs; naive_solver). simpl.
    destruct (Init_kwargs_wf T kwargs s1 m1 s2 Hwf Hm1 Hk1 Hrun2) as (m2 & Hm2 & Hk2 & Hl2).
    destruct (Init_required_first (GetFieldNames T) s2 m2 Hm2)
      as [[_ ->]|(pre & first & post & Hsplit & _ & Hfirst & _)]; [|by eauto|].
    + intros n Hn. pose proof (supplied_le _ _ _ _ Hsup) as Hle. rewrite Hm2 in Hle.
      apply Hle. rewrite (fresh_flags_elem T n Hn). eauto.
    + exfalso.
      assert (Hin : first ∈ GetFieldNames T) by (rewrite Hsplit; set_solver).
      apply list_elem_of_fmap in Hin as ([n d] & -> & Hd). simpl in Hfirst.
      pose proof (supplied_flags T args kwargs s2 Hwf Hsup n d Hd) as Hflag.
      unfold get_assigned in Hflag. rewrite Hm2, Hfirst in Hflag.
      injection Hflag as Hflag. symmetry in Hflag.
      apply orb_false_iff in Hflag as [Hflag Hkw'].
      apply orb_false_iff in Hflag as [Hdef Hpos].
      apply bool_decide_eq_false in Hdef, Hpos, Hkw'.
      destruct (Hcover n d Hd) as [?|[?|?]]; done.
Qed.

(** ** C7: duplicate assignment *)

(** The keyword loop refuses a name whose flag is already set. *)
Lemma Construct_duplicate_flagged T args pre name v post self :
  supplied T args pre = Ok self ->
  get_assigned self name = Ok true ->
  __init__ T args (pre ++ (name, v) :: post) = Raise (TypeError_Duplicate name).
Proof.
  intros Hsup Hflag. rewrite init_supplied.
  - rewrite supplied_app, Hsup. simpl. by rewrite Hflag.
  - right. by destruct pre.
Qed.

(** A field given by position and again by name: once the positional
    values and the earlier named values are applied, the keyword loop raises
    the duplicate error naming the field, before storing the second value. *)
Lemma Construct_position_and_name T args pre name v post self (i : nat) :
  wf_type T ->
  GetFieldNames T !! i = Some name -> (i < length args)%nat ->
  supplied T args pre = Ok self ->
  __init__ T args (pre ++ (name, v) :: post) = Raise (TypeError_Duplicate name).
Proof.
  intros Hwf Hi Hlt Hsup. apply (Construct_duplicate_flagged _ _ _ _ _ _ self Hsup).
  unfold GetFieldNames in Hi. rewrite list_lookup_fmap in Hi.
  destruct (fields T !! i) as [[n d]|] eqn:Hf; simpl in Hi; [|discriminate].
  injection Hi as ->.
  rewrite (supplied_flags T args pre self Hwf Hsup name d) by (by eapply list_elem_of_lookup_2).
  f_equal. rewrite (bool_decide_eq_true_2 (name ∈ take _ _)); [by rewrite orb_true_r|].
  apply (list_elem_of_lookup_2 _ i). rewrite lookup_take_lt by done.
  unfold GetFieldNames. by rewrite list_lookup_fmap, Hf.
Qed.

(** C7 at the failing inputs.  A field with a default ([Maybe] or [Array])
    is flagged by [_SetDefaults] before any supplied value is looked at, so
    giving it by name, once and not by position, is refused as a duplicate
    assignment. *)
Theorem Construct_named_default_rejected (T : CompoundType) (args : list pyvalue)
    (pre post : list (string * pyvalue)) (name : string) (d : type_desc) (v : pyvalue)
    (self : Instance) :
  wf_type T ->
  (name, d) ∈ fields T -> default_value d ≠ None ->
  name ∉ take (length args) (GetFieldNames T) -> name ∉ pre.*1 ->
  supplied T args pre = Ok self ->
  __init__ T args (pre ++ (name, v) :: post) = Raise (TypeError_Duplicate name).
Proof.
  intros Hwf Hd Hdef _ _ Hsup. apply (Construct_duplicate_flagged _ _ _ _ _ _ self Hsup).
  rewrite (supplied_flags T args pre self Hwf Hsup name d Hd).
  by rewrite (bool_decide_eq_true_2 _ Hdef).
Qed.

Lemma Construct_named_default_rejected_witness :
  exists self,
    supplied T_opt [VStr "n"] [] = Ok self /\
    __init__ T_opt [VStr "n"] [("opt", VInt 5)] = Raise (TypeError_Duplicate "opt").
Proof.
  eexists. split; [vm_compute; reflexivity|].
  eapply (Construct_named_default_rejected T_opt [VStr "n"] [] [] "opt" (MaybeType IntType)
            (VInt 5)).
  - exact T_opt_wf.
  - apply list_elem_of_In. simpl. auto.
  - discriminate.
  - by apply (bool_decide_unpack _).
  - by apply (bool_decide_unpack _).
  - vm_compute. reflexivity.
Defined.

(** The same field is accepted by position, and the required field is
    accepted by name. *)
Example Construct_optional_by_position :
  is_ok (__init__ T_opt [VStr "n"; VInt 5] []) = true /\
  is_ok (__init__ T_opt [] [("name", VStr "n")]) = true.
Proof. split; vm_compute; reflexivity. Qed.

End py_meta_claims.

(** * Stated property of [MakeTypes] *)

Module MakeTypes_claims.
Import py_meta.
Local Open Scope result_scope.

Lemma cons_loop_other base i conss root tag_num n :
  n ∉ name <$> conss ->
  (cons_loop base i conss root tag_num).1 !! n = root !! n /\
  (cons_loop base i conss root tag_num).2 !! n = tag_num !! n.
Proof.
  revert i root tag_num. induction conss as [|c conss IH]; intros i root tag_num Hn; simpl.
  - done.
  - rewrite fmap_cons in Hn. apply not_elem_of_cons in Hn as [Hne Hn].
    destruct (IH (S i) (<[name c:=ConsClass (name c) base c (Z.of_nat i + 1)]> root)
                (<[name c:=Z.of_nat i + 1]> tag_num) Hn) as [-> ->].
    by rewrite !lookup_insert_ne.
Qed.

Lemma cons_loop_lookup base i conss root tag_num j c :
  NoDup (name <$> conss) -> conss !! j = Some c ->
  (cons_loop base i conss root tag_num).1 !! name c =
    Some (ConsClass (name c) base c (Z.of_nat (i + j) + 1)) /\
  (cons_loop base i conss root tag_num).2 !! name c = Some (Z.of_nat (i + j) + 1).
Proof.
  revert i j root tag_num.
  induction conss as [|c0 conss IH]; intros i j root tag_num Hnd Hj; [done|].
  rewrite fmap_cons in Hnd. apply NoDup_cons in Hnd as [Hc0 Hnd]. simpl.
  destruct j as [|j]; simpl in Hj.
  - injection Hj as ->.
    destruct (cons_loop_other base (S i) conss
                (<[name c:=ConsClass (name c) base c (Z.of_nat i + 1)]> root)
                (<[name c:=Z.of_nat i + 1]> tag_num) (name c) Hc0) as [-> ->].
    rewrite !lookup_insert_eq, Nat.add_0_r. done.
  - replace (i + S j)%nat with (S i + j)%nat by lia. by apply IH.
Qed.

Lemma MakeTypes_defn_other root defn root' n :
  MakeTypes_defn root defn = Ok root' -> n ∉ names_of_defn defn -> root' !! n = root !! n.
Proof.
  unfold MakeTypes_defn, names_of_defn. destruct (value defn) as [s|p|]; [| |done].
  - destruct (is_simple s).
    + intros [= <-] Hn. apply not_elem_of_cons in Hn as [Hn _]. by rewrite lookup_insert_ne.
    + destruct (cons_loop _ _ _ _ _) as [root1 tn] eqn:Hloop. intros [= <-] Hn.
      apply not_elem_of_app in Hn as [Hn He].
      apply not_elem_of_cons in Hn as [Hb Hn]. apply not_elem_of_cons in He as [He _].
      rewrite lookup_insert_ne by done.
      pose proof (cons_loop_other (defn_name defn) 0 (types s)
                    (<[defn_name defn:=BaseClass (defn_name defn)]> root) ∅ n Hn) as [Hr _].
      rewrite Hloop in Hr. simpl in Hr. rewrite Hr. by rewrite lookup_insert_ne.
  - intros [= <-] Hn. apply not_elem_of_cons in Hn as [Hn _]. by rewrite lookup_insert_ne.
Qed.

Lemma MakeTypes_loop_other ds root root' n :
  MakeTypes_loop ds root = Ok root' -> n ∉ mjoin (names_of_defn <$> ds) ->
  root' !! n = root !! n.
Proof.
  revert root. induction ds as [|d ds IH]; intros root; simpl.
  - by intros [= <-].
  - destruct (MakeTypes_defn root d) as [root1|] eqn:Hd; simpl; [|done].
    intros Hrun Hn. apply not_elem_of_app in Hn as [Hn1 Hn2].
    rewrite (IH _ Hrun Hn2). eauto using MakeTypes_defn_other.
Qed.

(** One compound sum: after its definition is processed, the class of the
    alternative at index [i] carries the tag [i + 1], and so does the entry
    of the tag enumeration. *)
Lemma MakeTypes_defn_tags root defn root' s i c :
  value defn = TSum s -> is_simple s = false -> NoDup (names_of_defn defn) ->
  MakeTypes_defn root defn = Ok root' -> types s !! i = Some c ->
  root' !! name c = Some (ConsClass (name c) (defn_name defn) c (Z.of_nat i + 1)) /\
  exists tag_num,
    root' !! (defn_name defn +:+ "_e") = Some (TagEnum (defn_name defn +:+ "_e") tag_num) /\
    tag_num !! name c = Some (Z.of_nat i + 1).
Proof.
  intros Hv Hs. unfold MakeTypes_defn, names_of_defn. rewrite Hv, Hs.
  intros Hnd. destruct (cons_loop _ _ _ _ _) as [root1 tn] eqn:Hloop. intros [= <-] Hi.
  apply NoDup_app in Hnd as (Hnd & Hdisj & _). apply NoDup_cons in Hnd as [_ Hnd].
  pose proof (cons_loop_lookup (defn_name defn) 0 (types s)
                (<[defn_name defn:=BaseClass (defn_name defn)]> root) ∅ i c Hnd Hi) as [Hr Ht].
  rewrite Hloop in Hr, Ht. simpl in Hr, Ht.
  assert (Hc : name c ∈ name <$> types s).
  { apply list_elem_of_fmap. exists c. split; [done|]. by eapply list_elem_of_lookup_2. }
  split.
  - rewrite lookup_insert_ne; [done|]. intros He. apply (Hdisj (name c)).
    + by right.
    + rewrite <- He. left.
  - exists tn. by rewrite lookup_insert_eq.
Qed.

Lemma MakeTypes_loop_tags ds root0 root defn s i c :
  NoDup (mjoin (names_of_defn <$> ds)) ->
  MakeTypes_loop ds root0 = Ok root ->
  defn ∈ ds -> value defn = TSum s -> is_simple s = false ->
  types s !! i = Some c ->
  root !! name c = Some (ConsClass (name c) (defn_name defn) c (Z.of_nat i + 1)) /\
  exists tag_num,
    root !! (defn_name defn +:+ "_e") = Some (TagEnum (defn_name defn +:+ "_e") tag_num) /\
    tag_num !! name c = Some (Z.of_nat i + 1).
Proof.
  revert root0. induction ds as [|d ds IH]; intros root0 Hnd Hrun Hin Hv Hs Hi.
  - by apply elem_of_nil in Hin.
  - simpl in Hnd, Hrun. apply NoDup_app in Hnd as (Hnd1 & Hdisj & Hnd2).
    destruct (MakeTypes_defn root0 d) as [root1|] eqn:Hd; simpl in Hrun; [|done].
    apply elem_of_cons in Hin as [->|Hin]; [|by eapply IH].
    destruct (MakeTypes_defn_tags root0 d root1 s i c Hv Hs Hnd1 Hd Hi)
      as (Hcls & tn & Henum & Htag).
    assert (Hc : name c ∈ names_of_defn d).
    { unfold names_of_defn. rewrite Hv, Hs. apply elem_of_app. left. right.
      apply list_elem_of_fmap. exists c. split; [done|]. by eapply list_elem_of_lookup_2. }
    assert (He : (defn_name d +:+ "_e") ∈ names_of_defn d).
    { unfold names_of_defn. rewrite Hv, Hs. apply elem_of_app. right. left. }
    rewrite !(MakeTypes_loop_other ds root1 root _ Hrun) by auto. eauto.
Qed.

(** C8.  In the registry [MakeTypes] builds from a schema whose names are
    distinct, the class of every alternative of a compound sum carries as
    [tag] the 1-based position of the alternative in the declaration, the
    tag enumeration of the sum records the same number, and the tags of the
    sum, read in declaration order, are 1, 2, ..., n, hence distinct.  The
    registry is the value [MakeTypes] returns: the tags are these stored
    attributes, no later step computes them. *)
Theorem MakeTypes_tags (module : Module) (root0 root : gmap string pyobj)
    (defn : Defn) (s : SumObj) :
  NoDup (registered_names module) ->
  MakeTypes module root0 = Ok root ->
  defn ∈ dfns module -> value defn = TSum s -> is_simple s = false ->
  (forall i c, types s !! i = Some c ->
     root !! name c = Some (ConsClass (name c) (defn_name defn) c (Z.of_nat i + 1)) /\
     exists tag_num,
       root !! (defn_name defn +:+ "_e") =
         Some (TagEnum (defn_name defn +:+ "_e") tag_num) /\
       tag_num !! name c = Some (Z.of_nat i + 1)) /\
  (fun c => tag_of (root !! name c)) <$> types s =
    (fun i => Some (Z.of_nat i)) <$> seq 1 (length (types s)) /\
  NoDup ((fun c => tag_of (root !! name c)) <$> types s).
Proof.
  intros Hnd Hrun Hin Hv Hs.
  assert (Htags : forall i c, types s !! i = Some c ->
     root !! name c = Some (ConsClass (name c) (defn_name defn) c (Z.of_nat i + 1)) /\
     exists tag_num,
       root !! (defn_name defn +:+ "_e") =
         Some (TagEnum (defn_name defn +:+ "_e") tag_num) /\
       tag_num !! name c = Some (Z.of_nat i + 1)).
  { intros i c Hi. by eapply MakeTypes_loop_tags. }
  assert (Hseq : (fun c => tag_of (root !! name c)) <$> types s =
                 (fun i => Some (Z.of_nat i)) <$> seq 1 (length (types s))).
  { apply list_eq. intros i. rewrite !list_lookup_fmap.
    destruct (types s !! i) as [c|] eqn:Hi; simpl.
    - destruct (Htags i c Hi) as [-> _]. simpl.
      rewrite lookup_seq_lt by (by eapply lookup_lt_Some). simpl.
      do 2 f_equal. lia.
    - apply lookup_ge_None in Hi. by rewrite lookup_seq_ge. }
  split; [exact Htags|]. split; [exact Hseq|].
  rewrite Hseq. apply NoDup_fmap_2; [|apply NoDup_seq].
  intros x y [= H]. lia.
Qed.

Lemma MakeTypes_tags_witness :
  MakeTypes demo_module ∅ = Ok demo_root /\
  (fun c => tag_of (demo_root !! name c)) <$> types arith_sum = [Some 1; Some 2; Some 3].
Proof.
  split; [vm_compute; reflexivity|].
  apply (MakeTypes_tags demo_module ∅ demo_root
           {| defn_name := "arith_expr"; value := TSum arith_sum |} arith_sum).
  - apply (bool_decide_unpack _). vm_compute. exact I.
  - vm_compute. reflexivity.
  - left.
  - reflexivity.
  - reflexivity.
Defined.

End MakeTypes_claims.

(** * Properties of the arithmetic parser *)

Module parser_facts.
Import py_meta tdop typed_arith_parse parser_preds.
Local Open Scope parser_scope.

(** ** More budget does not change a finished run *)

Lemma le_outcome_refl {A} (o : outcome A) : le_outcome o o.
Proof. by right. Qed.

Lemma le_M_refl {A} (m : M A) : le_M m m.
Proof. intros st. apply le_outcome_refl. Qed.

Lemma le_M_bind {A B} (m1 m2 : M A) (k1 k2 : A -> M B) :
  le_M m1 m2 -> (forall a, le_M (k1 a) (k2 a)) -> le_M (pbind m1 k1) (pbind m2 k2).
Proof.
  intros Hm Hk st. unfold pbind. destruct (Hm st) as [-> | ->]; [by left|].
  destruct (m2 st); [apply Hk|by right|by right].
Qed.

Ltac mono_step :=
  first
    [ apply le_M_refl
    | apply le_M_bind; [|intros ?]
    | match goal with
      | H : le_obj _ _ |- le_M (ParseUntil_ _ _) (ParseUntil_ _ _) => apply H
      | |- le_M (if ?b then _ else _) (if ?b then _ else _) => destruct b
      | |- le_M (match ?x with Some _ => _ | None => _ end)
                (match ?x with Some _ => _ | None => _ end) => destruct x
      end ].

Lemma NullError_mono : mono_nud NullError.
Proof. intros p1 p2 token bp H. apply le_M_refl. Qed.

Lemma LeftError_mono : mono_led LeftError.
Proof. intros p1 p2 token left rbp H. apply le_M_refl. Qed.

Lemma NullConstant_mono : mono_nud NullConstant.
Proof. intros p1 p2 token bp H. apply le_M_refl. Qed.

Lemma NullParen_mono : mono_nud NullParen.
Proof. intros p1 p2 token bp H. unfold NullParen. repeat mono_step. Qed.

Lemma NullPrefixOp_mono : mono_nud NullPrefixOp.
Proof. intros p1 p2 token bp H. unfold NullPrefixOp. repeat mono_step. Qed.

Lemma NullIncDec_mono : mono_nud NullIncDec.
Proof. intros p1 p2 token bp H. unfold NullIncDec. repeat mono_step. Qed.

Lemma LeftIncDec_mono : mono_led LeftIncDec.
Proof. intros p1 p2 token left rbp H. apply le_M_refl. Qed.

Lemma LeftIndex_mono : mono_led LeftIndex.
Proof. intros p1 p2 token left rbp H. unfold LeftIndex. repeat mono_step. Qed.

Lemma LeftTernary_mono : mono_led LeftTernary.
Proof. intros p1 p2 token left rbp H. unfold LeftTernary. repeat mono_step. Qed.

Lemma LeftBinaryOp_mono : mono_led LeftBinaryOp.
Proof. intros p1 p2 token left rbp H. unfold LeftBinaryOp. repeat mono_step. Qed.

Lemma LeftAssign_mono : mono_led LeftAssign.
Proof. intros p1 p2 token left rbp H. unfold LeftAssign. repeat mono_step. Qed.

Lemma FuncCall_args_mono k1 k2 p1 p2 args :
  le_obj p1 p2 -> (k1 <= k2)%nat ->
  le_M (FuncCall_args k1 p1 args) (FuncCall_args k2 p2 args).
Proof.
  intros Hp. revert k2 args. induction k1 as [|k1 IH]; intros k2 args Hk.
  - intros st. by left.
  - destruct k2 as [|k2]; [lia|]. simpl. repeat mono_step. apply IH. lia.
Qed.

Lemma LeftFuncCall_mono : mono_led LeftFuncCall.
Proof.
  intros p1 p2 token left rbp H. unfold LeftFuncCall.
  destruct (negb (is_ArithVar left)); [apply le_M_refl|].
  apply le_M_bind; [apply FuncCall_args_mono; [done|apply H]|].
  intros args. repeat mono_step.
Qed.

(** Registration keeps a property of the handlers of a table, when the
    registered handler and the default handlers have it. *)
Lemma Null_all Pn Pl bp f tokens spec :
  (forall t, t ∈ tokens -> Pn t f) -> (forall t, Pl t LeftError) ->
  table_all Pn Pl spec -> table_all Pn Pl (Null bp f tokens spec).
Proof.
  intros Hf Hd. unfold Null. revert spec.
  induction tokens as [|tok tokens IH]; intros spec Hs; simpl; [done|].
  apply IH; [intros; apply Hf; by right|]. destruct Hs as [Hn Hl]. split; simpl.
  - intros t info. destruct (decide (tok = t)) as [->|Hne].
    + rewrite lookup_insert_eq. intros [= <-]. apply Hf. left.
    + rewrite lookup_insert_ne by done. apply Hn.
  - intros t info. destruct (left_lookup spec !! tok) eqn:Ht; [apply Hl|].
    destruct (decide (tok = t)) as [->|Hne].
    + rewrite lookup_insert_eq. intros [= <-]. apply Hd.
    + rewrite lookup_insert_ne by done. apply Hl.
Qed.

Lemma RegisterLed_all Pn Pl lbp rbp f tokens spec :
  (forall t, t ∈ tokens -> Pl t f) -> (forall t, Pn t NullError) ->
  table_all Pn Pl spec -> table_all Pn Pl (_RegisterLed lbp rbp f tokens spec).
Proof.
  intros Hf Hd. unfold _RegisterLed. revert spec.
  induction tokens as [|tok tokens IH]; intros spec Hs; simpl; [done|].
  apply IH; [intros; apply Hf; by right|]. destruct Hs as [Hn Hl]. split; simpl.
  - intros t info. destruct (null_lookup spec !! tok) eqn:Ht; [apply Hn|].
    destruct (decide (tok = t)) as [->|Hne].
    + rewrite lookup_insert_eq. intros [= <-]. apply Hd.
    + rewrite lookup_insert_ne by done. apply Hn.
  - intros t info. destruct (decide (tok = t)) as [->|Hne].
    + rewrite lookup_insert_eq. intros [= <-]. apply Hf. left.
    + rewrite lookup_insert_ne by done. apply Hl.
Qed.

Lemma empty_spec_all Pn Pl : table_all Pn Pl empty_spec.
Proof. split; intros t info; simpl; by rewrite lookup_empty. Qed.

Ltac table_all_shell :=
  unfold MakeShellParserSpec, Left, LeftRightAssoc; cbv zeta;
  repeat match goal with
         | |- table_all _ _ (Null _ _ _ _) => apply Null_all
         | |- table_all _ _ (_RegisterLed _ _ _ _ _) => apply RegisterLed_all
         | |- table_all _ _ empty_spec => apply empty_spec_all
         end.

Lemma MakeShellParserSpec_mono : mono_spec MakeShellParserSpec.
Proof.
  unfold mono_spec. table_all_shell;
    intros;
    first [ exact NullError_mono | exact LeftError_mono | exact NullConstant_mono
          | exact NullParen_mono | exact NullPrefixOp_mono | exact NullIncDec_mono
          | exact LeftIncDec_mono | exact LeftIndex_mono | exact LeftTernary_mono
          | exact LeftBinaryOp_mono | exact LeftAssign_mono | exact LeftFuncCall_mono ].
Qed.

(** The parser after [Next]. *)
Lemma Next_advance st : Next st = Done tt (advance st).
Proof. unfold Next, advance. by destruct (lexer st). Qed.

Lemma ParseLoop_unfold spec p k bound node st :
  ParseLoop spec p (S k) bound node st =
    match left_lookup spec !! type (token st) with
    | None => Raised (ParseError (UnexpectedToken (type (token st))))
    | Some info =>
        if (lbp info <=? bound)%Z then Done node st
        else
          (node <- led info p (token st) node (rbp info) ;;
           ParseLoop spec p k bound node) (advance st)
    end.
Proof.
  simpl. unfold pbind at 1 2, current, LookupLeft.
  destruct (left_lookup spec !! type (token st)) as [info|]; [|done].
  unfold ret at 1. destruct (lbp info <=? bound)%Z; [done|].
  unfold pbind at 1. by rewrite Next_advance.
Qed.

Lemma ParseUntil_unfold spec n bound st :
  ParseUntil spec (S n) bound st =
    let p := {| ParseUntil_ := ParseUntil spec n; gas := n |} in
    match null_lookup spec !! type (token st) with
    | None => Raised (ParseError (UnexpectedToken (type (token st))))
    | Some info =>
        (node <- nud info p (token st) (bp info) ;;
         ParseLoop spec p n bound node) (advance st)
    end.
Proof.
  simpl. unfold pbind at 1 2, current. rewrite Next_advance.
  unfold pbind at 1, LookupNull.
  by destruct (null_lookup spec !! type (token st)) as [info|].
Qed.

Lemma ParseLoop_mono spec p1 p2 k1 k2 bound node :
  mono_spec spec -> le_obj p1 p2 -> (k1 <= k2)%nat ->
  le_M (ParseLoop spec p1 k1 bound node) (ParseLoop spec p2 k2 bound node).
Proof.
  intros Hs Hp. revert k2 node. induction k1 as [|k1 IH]; intros k2 node Hk.
  - intros st. by left.
  - destruct k2 as [|k2]; [lia|]. intros st. rewrite !ParseLoop_unfold.
    destruct (left_lookup spec !! type (token st)) as [info|] eqn:Hinfo;
      [|apply le_outcome_refl].
    destruct (lbp info <=? bound)%Z; [apply le_outcome_refl|].
    apply le_M_bind; [by apply (proj2 Hs _ _ Hinfo)|].
    intros node'. apply IH. lia.
Qed.

Lemma ParseUntil_mono spec n m bound :
  mono_spec spec -> (n <= m)%nat ->
  le_M (ParseUntil spec n bound) (ParseUntil spec m bound).
Proof.
  intros Hs. revert m bound. induction n as [|n IH]; intros m bound Hnm.
  - intros st. by left.
  - destruct m as [|m]; [lia|].
    assert (Hp : le_obj {| ParseUntil_ := ParseUntil spec n; gas := n |}
                        {| ParseUntil_ := ParseUntil spec m; gas := m |}).
    { split; simpl; [|lia]. intros bound'. apply IH. lia. }
    intros st. rewrite !ParseUntil_unfold. cbv zeta.
    destruct (null_lookup spec !! type (token st)) as [info|] eqn:Hinfo;
      [|apply le_outcome_refl].
    apply le_M_bind; [by apply (proj1 Hs _ _ Hinfo)|].
    intros node. apply ParseLoop_mono; [done|done|lia].
Qed.

(** A run of the shell parser that finished finishes the same way with any
    larger budget. *)
Lemma parse_fuel_mono n m tokens (o : outcome arith_expr) :
  parse n tokens = o -> o ≠ OutOfFuel -> (n <= m)%nat -> parse m tokens = o.
Proof.
  intros Ho Hne Hnm. unfold parse, Parse in *.
  assert (H : le_M (Next ;;; ParseUntil MakeShellParserSpec n 0)
                   (Next ;;; ParseUntil MakeShellParserSpec m 0)).
  { apply le_M_bind; [apply le_M_refl|]. intros _.
    apply ParseUntil_mono; [apply MakeShellParserSpec_mono|done]. }
  destruct (H {| token := EOF_TOKEN; lexer := tokens |}) as [Hf|Heq]; congruence.
Qed.

(** ** Every parse ends, in a tree or in a [ParseError] *)

Lemma remaining_advance st : (remaining (advance st) <= remaining st)%nat.
Proof.
  unfold remaining, advance. destruct (lexer st) as [|t rest]; simpl; [lia|].
  destruct (String.eqb (type t) "eof"), (String.eqb (type (token st)) "eof"); lia.
Qed.

Lemma remaining_advance_lt st :
  String.eqb (type (token st)) "eof" = false ->
  (remaining (advance st) < remaining st)%nat.
Proof.
  intros He. unfold remaining, advance. rewrite He.
  destruct (lexer st) as [|t rest]; simpl; [lia|].
  destruct (String.eqb (type t) "eof"); lia.
Qed.

Lemma fine_weaken {A} st st' (o : outcome A) :
  (remaining st' <= remaining st)%nat -> fine st' o -> fine st o.
Proof. intros Hle. destruct o as [a st''|[]|]; simpl; auto. lia. Qed.

Lemma fine_lt_fine {A} st (o : outcome A) : fine_lt st o -> fine st o.
Proof. destruct o as [a st''|[]|]; simpl; auto. lia. Qed.

Lemma fine_bind {A B} (m : M A) (k : A -> M B) st :
  fine st (m st) ->
  (forall a st', m st = Done a st' -> (remaining st' <= remaining st)%nat ->
     fine st' (k a st')) ->
  fine st (pbind m k st).
Proof.
  intros Hm Hk. unfold pbind. destruct (m st) as [a st'|[]|] eqn:Hrun; simpl in *; auto.
  eapply fine_weaken; eauto.
Qed.

Lemma fine_Next st : fine st (Next st).
Proof. rewrite Next_advance. apply remaining_advance. Qed.

Lemma fine_AtToken t st : fine st (AtToken t st).
Proof. simpl. lia. Qed.

Lemma fine_Eat t st : fine st (Eat t st).
Proof.
  unfold Eat, pbind, AtToken. destruct (String.eqb (type (token st)) t); [|exact I].
  apply fine_Next.
Qed.

Lemma fine_ret {A} (a : A) st : fine st (ret a st).
Proof. simpl. lia. Qed.

Lemma fine_call n p bound st :
  fine_obj n p -> (remaining st < n)%nat -> fine st (ParseUntil_ p bound st).
Proof. intros [Hp _] Hst. by apply fine_lt_fine, Hp. Qed.

Ltac fine_step :=
  match goal with
  | |- fine _ (pbind _ _ _) => apply fine_bind; [|intros ? ? _ ?]
  | Hp : fine_obj _ _ |- fine _ (ParseUntil_ _ _ _) => apply (fine_call _ _ _ _ Hp); lia
  | |- fine _ (ret _ _) => apply fine_ret
  | |- fine _ (raise (ParseError _) _) => exact I
  | |- fine _ (Eat _ _) => apply fine_Eat
  | |- fine _ (AtToken _ _) => apply fine_AtToken
  | |- fine _ (Next _) => apply fine_Next
  | |- fine _ ((if ?b then _ else _) _) => destruct b
  | |- fine _ (match ?x with Some _ => _ | None => _ end _) => destruct x
  end.

Lemma NullError_fine t : fine_nud t NullError.
Proof. intros n p token bp st Hp Ht Hst. exact I. Qed.

Lemma LeftError_fine t : fine_led t LeftError.
Proof. intros n p token left bound st Hp Hst. exact I. Qed.

(** [NullConstant] is registered for names and numbers only, where its
    assertion cannot fail. *)
Lemma NullConstant_fine t : t ∈ ["name"; "number"] -> fine_nud t NullConstant.
Proof.
  intros Ht n p token bp st Hp Htok Hst. unfold NullConstant. rewrite Htok.
  apply elem_of_cons in Ht as [->|Ht]; [simpl; lia|].
  apply elem_of_cons in Ht as [->|Ht]; [simpl; lia|]. by apply elem_of_nil in Ht.
Qed.

Lemma NullParen_fine t : fine_nud t NullParen.
Proof. intros n p token bp st Hp Ht Hst. unfold NullParen. repeat fine_step. Qed.

Lemma NullPrefixOp_fine t : fine_nud t NullPrefixOp.
Proof. intros n p token bp st Hp Ht Hst. unfold NullPrefixOp. repeat fine_step. Qed.

Lemma NullIncDec_fine t : fine_nud t NullIncDec.
Proof. intros n p token bp st Hp Ht Hst. unfold NullIncDec. repeat fine_step. Qed.

Lemma LeftIncDec_fine t : fine_led t LeftIncDec.
Proof. intros n p token left bound st Hp Hst. unfold LeftIncDec. repeat fine_step. Qed.

Lemma LeftIndex_fine t : fine_led t LeftIndex.
Proof.
  intros n p token left bound st Hp Hst. unfold LeftIndex. repeat fine_step.
Qed.

Lemma LeftTernary_fine t : fine_led t LeftTernary.
Proof. intros n p token left bound st Hp Hst. unfold LeftTernary. repeat fine_step. Qed.

Lemma LeftBinaryOp_fine t : fine_led t LeftBinaryOp.
Proof. intros n p token left bound st Hp Hst. unfold LeftBinaryOp. repeat fine_step. Qed.

Lemma LeftAssign_fine t : fine_led t LeftAssign.
Proof. intros n p token left bound st Hp Hst. unfold LeftAssign. repeat fine_step. Qed.

(** Each round of the argument loop that goes on has parsed an argument,
    and so consumed a token. *)
Lemma FuncCall_args_fine n p k args st :
  fine_obj n p -> (remaining st < n)%nat -> (remaining st < k)%nat ->
  fine st (FuncCall_args k p args st).
Proof.
  intros Hp. revert args st. induction k as [|k IH]; intros args st Hn Hk; [lia|].
  simpl. unfold pbind at 1, AtToken at 1.
  destruct (String.eqb (type (token st)) ")"); [apply fine_ret|].
  unfold pbind at 1.
  pose proof (proj1 Hp COMMA_PREC st Hn) as Harg.
  destruct (ParseUntil_ p COMMA_PREC st) as [arg st1|[]|]; simpl in Harg; try done.
  eapply (fine_weaken st st1); [lia|].
  repeat fine_step. apply IH; lia.
Qed.

Lemma LeftFuncCall_fine t : fine_led t LeftFuncCall.
Proof.
  intros n p token left bound st Hp Hst. unfold LeftFuncCall.
  destruct (negb (is_ArithVar left)); [exact I|].
  apply fine_bind; [apply (FuncCall_args_fine n); [done|done|]|].
  - destruct Hp as [_ Hg]. lia.
  - intros args st' _ Hle. repeat fine_step.
Qed.

Lemma MakeShellParserSpec_fine : fine_spec MakeShellParserSpec.
Proof.
  unfold fine_spec. table_all_shell;
    intros;
    first [ apply NullError_fine | apply LeftError_fine | by apply NullConstant_fine
          | apply NullParen_fine | apply NullPrefixOp_fine | apply NullIncDec_fine
          | apply LeftIncDec_fine | apply LeftIndex_fine | apply LeftTernary_fine
          | apply LeftBinaryOp_fine | apply LeftAssign_fine | apply LeftFuncCall_fine ].
Qed.

Lemma MakeShellParserSpec_eof : eof_fails MakeShellParserSpec.
Proof. split; [by exists (-1)%Z|by exists 0%Z, 0%Z]. Qed.

Lemma ParseLoop_fine spec n p k bound node st :
  fine_spec spec -> eof_fails spec -> fine_obj n p ->
  (remaining st < n)%nat -> (remaining st < k)%nat ->
  fine st (ParseLoop spec p k bound node st).
Proof.
  intros Hs [_ (l & r & Heof)] Hp. revert node st.
  induction k as [|k IH]; intros node st Hn Hk; [lia|].
  rewrite ParseLoop_unfold.
  destruct (left_lookup spec !! type (token st)) as [info|] eqn:Hinfo; [|exact I].
  destruct (lbp info <=? bound)%Z; [simpl; lia|].
  destruct (String.eqb_spec (type (token st)) "eof") as [He|He].
  - rewrite He, Heof in Hinfo. injection Hinfo as <-. exact I.
  - apply eqb_neq in He. pose proof (remaining_advance_lt st He) as Hlt.
    apply (fine_weaken st (advance st)); [lia|].
    apply fine_bind.
    + apply (proj2 Hs _ _ Hinfo n); [done|lia].
    + intros node' st' _ Hle. apply IH; lia.
Qed.

Lemma ParseUntil_fine spec n bound st :
  fine_spec spec -> eof_fails spec ->
  (remaining st < n)%nat -> fine_lt st (ParseUntil spec n bound st).
Proof.
  intros Hs Heof. revert bound st. induction n as [|n IH]; intros bound st Hn; [lia|].
  rewrite ParseUntil_unfold. cbv zeta.
  destruct (null_lookup spec !! type (token st)) as [info|] eqn:Hinfo; [|exact I].
  destruct (String.eqb_spec (type (token st)) "eof") as [He|He].
  - destruct Heof as [(b & Hnull) _]. rewrite He, Hnull in Hinfo. injection Hinfo as <-.
    exact I.
  - apply eqb_neq in He. pose proof (remaining_advance_lt st He) as Hlt.
    assert (Hp : fine_obj n {| ParseUntil_ := ParseUntil spec n; gas := n |}).
    { split; simpl; [|lia]. intros bound' st' Hst'. by apply IH. }
    assert (Hfine : fine (advance st)
              ((node <- nud info {| ParseUntil_ := ParseUntil spec n; gas := n |}
                          (token st) (bp info) ;;
                ParseLoop spec {| ParseUntil_ := ParseUntil spec n; gas := n |} n bound node)
                 (advance st))).
    { apply fine_bind.
      - apply (proj1 Hs _ _ Hinfo n); [done|done|lia].
      - intros node st' _ Hle. apply (ParseLoop_fine spec n); auto; lia. }
    destruct (pbind _ _ (advance st)) as [a st'|[]|]; simpl in *; auto. lia.
Qed.

(** With a budget above the number of tokens, the shell parser returns a
    tree or raises a [ParseError]. *)
Lemma parse_total fuel tokens :
  (length tokens < fuel)%nat ->
  (exists tree st, parse fuel tokens = Done tree st) \/
  (exists e, parse fuel tokens = Raised (ParseError e)).
Proof.
  intros Hfuel. unfold parse, Parse, pbind. rewrite Next_advance.
  pose proof (ParseUntil_fine MakeShellParserSpec fuel 0
                (advance {| token := EOF_TOKEN; lexer := tokens |})
                MakeShellParserSpec_fine MakeShellParserSpec_eof) as H.
  destruct (ParseUntil _ _ _ _) as [tree st|[e|w]|]; [eauto|eauto| |].
  - exfalso. apply H. pose proof (remaining_advance {| token := EOF_TOKEN; lexer := tokens |}).
    unfold remaining at 2 in H0. simpl in H0. lia.
  - exfalso. apply H. pose proof (remaining_advance {| token := EOF_TOKEN; lexer := tokens |}).
    unfold remaining at 2 in H0. simpl in H0. lia.
Qed.

End parser_facts.

(** * Stated properties of the arithmetic parser *)

Module parser_claims.
Import py_meta tdop typed_arith_parse parser_preds parser_facts.
Local Open Scope parser_scope.

(** ** C3: postfix increment and decrement *)

(** What [LeftIncDec] does on every input: it refuses a left operand that
    is neither a variable nor an index expression, and otherwise wraps the
    operand with [token.val]; the type it gave the token is not in the node. *)
Lemma LeftIncDec_spec p token left rbp st :
  LeftIncDec p token left rbp st =
    if is_ArithVar_or_Index left then Done (ArithUnary (val token) left) st
    else Raised (ParseError (CantAssign left)).
Proof. unfold LeftIncDec. by destruct (is_ArithVar_or_Index left). Qed.

(** C3 at the failing input.  The postfix operator applied to a variable
    parses to a unary node whose operator is the value of the operator
    token, the same node the prefix operator gives: the [post] the handler
    puts in front of the token type does not reach the tree.  On a number the
    postfix operator is refused. *)
Theorem postfix_incdec_tag (fuel : nat) (x : string) (v : pyvalue) (n : Z) :
  (3 <= fuel)%nat ->
  parse fuel [ident x; {| type := "++"; val := v |}] =
    Done (ArithUnary v (ArithVar (VStr x))) at_eof /\
  parse fuel [{| type := "++"; val := v |}; ident x] =
    Done (ArithUnary v (ArithVar (VStr x))) at_eof /\
  parse fuel [ident "x"; op "++"] ≠
    Done (ArithUnary (VStr "post++") (ArithVar (VStr "x"))) at_eof /\
  parse fuel [number n; op "++"] = Raised (ParseError (CantAssign (Const (VInt n)))).
Proof.
  intros Hfuel.
  assert (H1 : parse fuel [ident x; {| type := "++"; val := v |}] =
               Done (ArithUnary v (ArithVar (VStr x))) at_eof).
  { apply (parse_fuel_mono 3); [reflexivity|discriminate|done]. }
  assert (H2 : parse fuel [ident "x"; op "++"] =
               Done (ArithUnary (VStr "++") (ArithVar (VStr "x"))) at_eof).
  { apply (parse_fuel_mono 3); [reflexivity|discriminate|done]. }
  repeat split.
  - exact H1.
  - apply (parse_fuel_mono 3); [reflexivity|discriminate|done].
  - rewrite H2. discriminate.
  - apply (parse_fuel_mono 3); [reflexivity|discriminate|done].
Qed.

Lemma postfix_incdec_tag_witness :
  parse 3 [ident "x"; op "++"] = Done (ArithUnary (VStr "++") (ArithVar (VStr "x"))) at_eof.
Proof.
  apply (postfix_incdec_tag 3 "x" (VStr "++") 1). lia.
Defined.

(** ** C4: function calls *)

(** [LeftFuncCall] refuses every callee that is not a plain variable. *)
Lemma LeftFuncCall_callee p token left bp st :
  is_ArithVar left = false ->
  LeftFuncCall p token left bp st = Raised (ParseError (CantBeCalled left)).
Proof. intros H. unfold LeftFuncCall. by rewrite H. Qed.

(** The loop of [ParseUntil] stops in front of a token whose left binding
    power is not greater than the bound. *)
Lemma ParseLoop_stops spec p fuel bound node st info :
  left_lookup spec !! type (token st) = Some info -> (lbp info <= bound)%Z ->
  ParseLoop spec p (S fuel) bound node st = Done node st.
Proof.
  intros Hinfo Hle. simpl. unfold pbind, current, LookupLeft. rewrite Hinfo. simpl.
  apply Z.leb_le in Hle. by rewrite Hle.
Qed.

(** C4, as the code has it.  The callee must be a plain variable.  Each
    argument is parsed up to [COMMA_PREC], which is also the left binding
    power of the [","] operator: the loop goes on only for a strictly
    greater power, so a comma after an argument is left for the call handler
    to skip, while between parentheses inside an argument it is the comma
    operator. *)
Theorem call_arguments (fuel : nat) (f : string) (a b : Z) :
  (5 <= fuel)%nat ->
  (forall p token left bp st, is_ArithVar left = false ->
     LeftFuncCall p token left bp st = Raised (ParseError (CantBeCalled left))) /\
  lbp <$> left_lookup MakeShellParserSpec !! "," = Some COMMA_PREC /\
  (forall p k node st, type (token st) = "," ->
     ParseLoop MakeShellParserSpec p (S k) COMMA_PREC node st = Done node st) /\
  parse fuel [ident f; op "("; number a; op ","; number b; op ")"] =
    Done (FuncCall (VStr f) [Const (VInt a); Const (VInt b)]) at_eof /\
  parse fuel [number a; op "("; number b; op ")"] =
    Raised (ParseError (CantBeCalled (Const (VInt a)))) /\
  parse fuel [ident f; op "("; op "("; number a; op ","; number b; op ")"; op ")"] =
    Done (FuncCall (VStr f) [ArithBinary (VStr ",") (Const (VInt a)) (Const (VInt b))]) at_eof.
Proof.
  intros Hfuel. split; [intros; by apply LeftFuncCall_callee|].
  split; [reflexivity|]. split.
  - intros p k node st Ht.
    eapply (ParseLoop_stops _ _ _ _ _ _ {| led := LeftBinaryOp; lbp := 1; rbp := 1 |});
      [by rewrite Ht|done].
  - repeat split; apply (parse_fuel_mono 5); (reflexivity || discriminate || done).
Qed.

Lemma call_arguments_witness :
  parse 5 [ident "f"; op "("; number 1; op ","; number 2; op ")"] =
    Done (FuncCall (VStr "f") [Const (VInt 1); Const (VInt 2)]) at_eof.
Proof.
  apply (call_arguments 5 "f" 1 2). lia.
Defined.

(** C4 as stated fails: the bound [LeftFuncCall] passes on for an argument
    is the left binding power of the [","] operator, not a number distinct
    from it. *)
Lemma argument_bound_is_comma_power :
  lbp <$> left_lookup MakeShellParserSpec !! "," = Some 1%Z /\
  LeftFuncCall probe (op "(") (ArithVar (VStr "f")) 31
    {| token := number 7; lexer := [op ")"] |} =
    Done (FuncCall (VStr "f") [Const (VInt 1)]) at_eof.
Proof. split; reflexivity. Qed.

(** ** C5: exponentiation *)

(** C5.  ["**"] is registered with left binding power 27 and right bound
    26, one less; the loop hands the right bound to the handler, which
    recurses with it; so a second ["**"] binds the operands to its right
    first. *)
Theorem power_right_assoc (fuel : nat) (a b c : Z) :
  (4 <= fuel)%nat ->
  (fun info => (lbp info, rbp info)) <$> left_lookup MakeShellParserSpec !! "**" =
    Some (27, 27 - 1)%Z /\
  ParseLoop MakeShellParserSpec probe 2 0 (Const (VInt a))
    {| token := op "**"; lexer := [number b] |} =
    Done (ArithBinary (VStr "**") (Const (VInt a)) (Const (VInt (27 - 1)))) at_eof /\
  parse fuel [number a; op "**"; number b; op "**"; number c] =
    Done (ArithBinary (VStr "**") (Const (VInt a))
            (ArithBinary (VStr "**") (Const (VInt b)) (Const (VInt c)))) at_eof.
Proof.
  intros Hfuel. split; [reflexivity|]. split; [reflexivity|].
  apply (parse_fuel_mono 4); (reflexivity || discriminate || done).
Qed.

Lemma power_right_assoc_witness :
  parse 4 [number 2; op "**"; number 3; op "**"; number 2] =
    Done (ArithBinary (VStr "**") (Const (VInt 2))
            (ArithBinary (VStr "**") (Const (VInt 3)) (Const (VInt 2)))) at_eof.
Proof.
  apply (power_right_assoc 4 2 3 2). lia.
Defined.

(** A left-associative operator of the same table, for contrast. *)
Example minus_left_assoc :
  parse 4 [number 1; op "-"; number 2; op "-"; number 3] =
    Done (ArithBinary (VStr "-") (ArithBinary (VStr "-") (Const (VInt 1)) (Const (VInt 2)))
            (Const (VInt 3))) at_eof.
Proof. reflexivity. Qed.

(** ** C6: the command line *)

Section Main.

Variable Tokenize : string -> list Token.
Variable repr : arith_expr -> string.

Lemma main_usage fuel argv :
  argv !! 1%nat = None ->
  main Tokenize repr fuel argv = ([Stdout "Usage: ./arith_parse.py EXPRESSION"], Returns).
Proof. intros H. unfold main. by rewrite H. Qed.

Lemma main_success fuel argv s tree st :
  argv !! 1%nat = Some s -> ParseShell Tokenize fuel s = Done tree st ->
  main Tokenize repr fuel argv = ([Stdout (repr tree)], Returns).
Proof. intros H Hp. unfold main. by rewrite H, Hp. Qed.

(** C6 at the failing inputs.  When the parse of the argument fails, [main]
    writes the error to the error stream and then goes on to [print(tree)]
    with [tree] unbound: the run ends in an [UnboundLocalError] instead of
    returning. *)
Theorem main_parse_failure (fuel : nat) (argv : list string) (s : string) (e : parse_msg) :
  argv !! 1%nat = Some s ->
  ParseShell Tokenize fuel s = Raised (ParseError e) ->
  main Tokenize repr fuel argv =
    ([Stderr_parse_error s e], Raises_UnboundLocalError "tree").
Proof. intros H Hp. unfold main. by rewrite H, Hp. Qed.

(** With a budget above the number of tokens these are the two ways a run
    with an argument ends: the tree on the output stream and a normal
    return, or the error on the error stream followed by the
    [UnboundLocalError]. *)
Lemma main_outcomes fuel argv s :
  argv !! 1%nat = Some s -> (length (Tokenize s) < fuel)%nat ->
  (exists tree, main Tokenize repr fuel argv = ([Stdout (repr tree)], Returns)) \/
  (exists e, main Tokenize repr fuel argv =
     ([Stderr_parse_error s e], Raises_UnboundLocalError "tree")).
Proof.
  intros H Hfuel.
  destruct (parse_total fuel (Tokenize s) Hfuel) as [(tree & st & Hp)|(e & Hp)].
  - left. exists tree. by apply (main_success fuel argv s tree st).
  - right. exists e. unfold main, ParseShell. unfold parse in Hp.
    by rewrite H, Hp.
Qed.

End Main.

Lemma main_parse_failure_witness :
  main (fun _ => [number 1; op "++"]) (fun _ => "") 3 ["arith_parse.py"; "1++"] =
    ([Stderr_parse_error "1++" (CantAssign (Const (VInt 1)))], Raises_UnboundLocalError "tree").
Proof.
  apply (main_parse_failure (fun _ => [number 1; op "++"]) (fun _ => "") 3
           ["arith_parse.py"; "1++"] "1++" (CantAssign (Const (VInt 1)))); reflexivity.
Defined.

End parser_claims.

(** * Further properties of [py_meta] *)

Module py_meta_extra.
Import py_meta py_meta_facts py_meta_claims py_meta_more.
Local Open Scope result_scope.

(** ** [_CheckType] on the container descriptors *)



(** X2.  An [Array] descriptor accepts a list exactly when its element
    descriptor accepts every entry; so the empty list is accepted whatever
    the element descriptor is. *)
Theorem CheckType_array (items : list pyvalue) (desc : type_desc) :
  _CheckType (VList items) (ArrayType desc) = Ok true <->
  Forall (fun item => _CheckType item desc = Ok true) items.
Proof.
  simpl. induction items as [|item items IH]; simpl.
  - split; [constructor|done].
  - destruct (_CheckType item desc) as [[|]|] eqn:Hitem; simpl.
    + rewrite IH. split; [by constructor|]. by intros [_ ?]%Forall_cons.
    + split; [done|]. intros [? _]%Forall_cons. congruence.
    + split; [done|]. intros [? _]%Forall_cons. congruence.
Qed.

(** ** Attribute assignment *)

Lemma assoc_elem name d fs : assoc name fs = Some d -> (name, d) ∈ fs.
Proof.
  induction fs as [|[n d'] fs IH]; simpl; [done|].
  destruct (String.eqb_spec name n) as [->|Hne].
  - intros [= ->]. left.
  - intros H. right. auto.
Qed.

Lemma setattr_inv T self name v self' :
  String.eqb name "_assigned" = false ->
  __setattr__ T self name v = Ok self' ->
  exists m d,
    _assigned self = Flags m /\ LookupFieldType T name = Some d /\ _CheckType v d = Ok true /\
    self' = {| _assigned := Flags (<[name:=true]> m); __dict__ := <[name:=v]> (__dict__ self) |}.
Proof.
  intros Hne. unfold __setattr__, set_assigned. rewrite Hne.
  destruct (LookupFieldType T name) as [d|]; [|done]. simpl.
  destruct (_CheckType v d) as [[|]|] eqn:Hc; simpl; try done.
  destruct (_assigned self) as [m|]; simpl; [|done].
  intros [= <-]. by exists m, d.
Qed.

(** X3.  Field round trip: after a successful assignment of [v] to a field,
    reading the field gives [v] and its flag is set, and no other field
    changed its value or its flag. *)
Theorem setattr_round_trip (T : CompoundType) (self self' : Instance) (name : string)
    (v : pyvalue) :
  name ≠ "_assigned" ->
  __setattr__ T self name v = Ok self' ->
  __dict__ self' !! name = Some v /\
  get_assigned self' name = Ok true /\
  (forall n, n ≠ name ->
     __dict__ self' !! n = __dict__ self !! n /\ get_assigned self' n = get_assigned self n).
Proof.
  intros Hne%eqb_false_iff Hset.
  destruct (setattr_inv T self name v self' Hne Hset) as (m & d & Hm & _ & _ & ->).
  unfold get_assigned. simpl. rewrite Hm, !lookup_insert_eq. repeat split; auto.
  - by rewrite lookup_insert_ne.
  - by rewrite lookup_insert_ne.
Qed.

Lemma setattr_round_trip_witness :
  exists self self',
    __init__ T_opt [] [] = Ok self /\
    __setattr__ T_opt self "name" (VStr "n") = Ok self' /\
    __dict__ self' !! "name" = Some (VStr "n").
Proof.
  eexists. eexists. split; [vm_compute; reflexivity|].
  match goal with |- ?A /\ _ => assert (H : A) by (vm_compute; reflexivity) end.
  split; [exact H|].
  eapply (setattr_round_trip T_opt _ _ "name" (VStr "n")); [discriminate|exact H].
Defined.

(** ** The values a construction stores *)

Lemma init_supplied_ok T args kwargs self :
  __init__ T args kwargs = Ok self -> supplied T args kwargs = Ok self.
Proof.
  destruct (decide (args = [] /\ kwargs = [])) as [[-> ->]|Hne].
  - rewrite init_no_values. unfold supplied. by destruct (_SetDefaults T (fresh T)).
  - rewrite init_supplied by (destruct args, kwargs; naive_solver).
    destruct (supplied T args kwargs) as [s|]; simpl; [|done].
    destruct (_Init_required (GetFieldNames T) s); simpl; [|done]. by intros [= <-].
Qed.

Lemma NoDup_lookup_not_later (l : list string) i x k :
  NoDup l -> l !! i = Some x -> x ∉ take k (drop (S i) l).
Proof.
  intros Hnd Hi Hin. apply list_elem_of_lookup in Hin as [j Hj].
  apply lookup_take_Some in Hj as [Hj _]. rewrite lookup_drop in Hj.
  pose proof (NoDup_lookup l i (S i + j) x Hnd Hi Hj). lia.
Qed.

Lemma Init_args_dict T i args self m self' :
  wf_type T -> _assigned self = Flags m ->
  _Init_args T (GetFieldNames T) i args self = Ok self' ->
  (forall j n v, GetFieldNames T !! (i + j)%nat = Some n -> args !! j = Some v ->
     __dict__ self' !! n = Some v /\
     exists d, LookupFieldType T n = Some d /\ _CheckType v d = Ok true) /\
  (forall n, n ∉ take (length args) (drop i (GetFieldNames T)) ->
     __dict__ self' !! n = __dict__ self !! n).
Proof.
  intros Hwf. revert i self m.
  induction args as [|v args IH]; intros i self m Hm; simpl.
  - intros [= <-]. split; [intros j n v' _ Hj; by destruct j|done].
  - destruct (GetFieldNames T !! i) as [name|] eqn:Hi; [|done].
    assert (Hname : name ∈ GetFieldNames T) by (by eapply list_elem_of_lookup_2).
    destruct (__setattr__ T self name v) as [s1|] eqn:Hs; simpl; [|done].
    intros Hrun.
    destruct (setattr_inv T self name v s1 (wf_not_assigned T name Hwf Hname) Hs)
      as (m0 & d & Hm0 & Hd & Hc & ->).
    destruct (IH (S i) {| _assigned := Flags (<[name:=true]> m0);
                          __dict__ := <[name:=v]> (__dict__ self) |}
                (<[name:=true]> m0) eq_refl Hrun) as [Hpos Hother].
    simpl in *. split.
    + intros [|j] n v' Hn Hv.
      * rewrite Nat.add_0_r, Hi in Hn. injection Hn as <-. injection Hv as <-.
        rewrite Hother by (apply NoDup_lookup_not_later; [apply Hwf|done]).
        rewrite lookup_insert_eq. eauto.
      * apply (Hpos j n v'); [|done].
        replace (S (i + j))%nat with (i + S j)%nat by lia. done.
    + intros n Hn. rewrite (drop_S _ _ _ Hi) in Hn. simpl in Hn.
      apply not_elem_of_cons in Hn as [Hne Hn]. rewrite Hother by done.
      by rewrite lookup_insert_ne.
Qed.

Lemma Init_kwargs_dict T kwargs self m self' :
  wf_type T -> _assigned self = Flags m -> keys_in T m ->
  _Init_kwargs T kwargs self = Ok self' ->
  NoDup kwargs.*1 /\
  (forall n v, (n, v) ∈ kwargs ->
     __dict__ self' !! n = Some v /\ m !! n = Some false /\
     exists d, LookupFieldType T n = Some d /\ _CheckType v d = Ok true) /\
  (forall n, n ∉ kwargs.*1 -> __dict__ self' !! n = __dict__ self !! n).
Proof.
  intros Hwf. revert self m.
  induction kwargs as [|[name v] kwargs IH]; intros self m Hm Hk; simpl.
  - intros [= <-]. split; [constructor|]. split; [|done].
    intros n v Hin. by apply elem_of_nil in Hin.
  - unfold get_assigned. rewrite Hm. destruct (m !! name) as [[|]|] eqn:Hb; simpl; try done.
    assert (Hname : name ∈ GetFieldNames T) by (apply Hk; by rewrite Hb).
    destruct (__setattr__ T self name v) as [s1|] eqn:Hs; simpl; [|done].
    intros Hrun.
    destruct (setattr_inv T self name v s1 (wf_not_assigned T name Hwf Hname) Hs)
      as (m0 & d & Hm0 & Hd & Hc & ->).
    rewrite Hm in Hm0. injection Hm0 as <-.
    destruct (IH {| _assigned := Flags (<[name:=true]> m);
                    __dict__ := <[name:=v]> (__dict__ self) |}
                (<[name:=true]> m) eq_refl (keys_in_insert _ _ _ Hk Hname) Hrun)
      as (Hnd & Hin & Hother).
    simpl in *.
    assert (Hfresh : name ∉ kwargs.*1).
    { intros ([n' v'] & -> & Hin')%list_elem_of_fmap. destruct (Hin _ _ Hin') as (_ & Hf & _).
      simpl in Hf. by rewrite lookup_insert_eq in Hf. }
    split; [by constructor|]. split.
    + intros n v' [[= -> ->]|Hin']%elem_of_cons.
      * rewrite (Hother name Hfresh), lookup_insert_eq. eauto.
      * destruct (Hin _ _ Hin') as (Hv & Hf & Hd'). repeat split; auto.
        destruct (decide (name = n)) as [->|Hne]; [by rewrite lookup_insert_eq in Hf|].
        by rewrite lookup_insert_ne in Hf.
    + intros n [Hne Hn]%not_elem_of_cons. rewrite Hother by done.
      by rewrite lookup_insert_ne.
Qed.

(** The instance after the defaults and the supplied values, field by
    field. *)
Lemma supplied_dict T args kwargs self :
  wf_type T -> supplied T args kwargs = Ok self ->
  NoDup kwargs.*1 /\
  (forall n v, (n, v) ∈ kwargs ->
     __dict__ self !! n = Some v /\ (n ∉ take (length args) (GetFieldNames T)) /\
     exists d, (n, d) ∈ fields T /\ default_value d = None /\ _CheckType v d = Ok true) /\
  (forall i n v, GetFieldNames T !! i = Some n -> args !! i = Some v ->
     __dict__ self !! n = Some v /\
     exists d, (n, d) ∈ fields T /\ _CheckType v d = Ok true) /\
  (forall n d, (n, d) ∈ fields T ->
     (n ∉ take (length args) (GetFieldNames T)) -> (n ∉ kwargs.*1) ->
     __dict__ self !! n = default_value d) /\
  (forall n, n ∉ GetFieldNames T -> __dict__ self !! n = None).
Proof.
  intros Hwf. unfold supplied.
  destruct (SetDefaults_loop_spec T (fields T) (fresh T) (fresh_flags T) Hwf)
    as (m0 & dict0 & Hrun0 & Hout0 & Hin0); [done|apply Hwf|done|].
  unfold _SetDefaults, GetFields. rewrite Hrun0. simpl.
  destruct (SetDefaults_fresh_keys T m0 dict0 Hwf Hrun0) as [Hk0 Hl0].
  destruct (_Init_args _ _ _ _ _) as [s1|] eqn:H1; simpl; [|done].
  intros H2.
  destruct (Init_args_wf T 0 args {| _assigned := Flags m0; __dict__ := dict0 |} m0 s1
              Hwf eq_refl Hk0 H1) as (m1 & Hm1 & Hk1 & Hl1).
  destruct (Init_args_dict T 0 args {| _assigned := Flags m0; __dict__ := dict0 |} m0 s1
              Hwf eq_refl H1) as [Hpos1 Hother1].
  destruct (Init_kwargs_dict T kwargs s1 m1 self Hwf Hm1 Hk1 H2) as (Hnd & Hkw & Hother2).
  rewrite drop_0 in Hl1, Hother1. simpl in *.
  assert (Hkwpos : forall n v, (n, v) ∈ kwargs -> n ∉ take (length args) (GetFieldNames T)).
  { intros n v Hin Hpos. destruct (Hkw n v Hin) as (_ & Hf & _).
    rewrite Hl1, (bool_decide_eq_true_2 _ Hpos) in Hf. discriminate. }
  split; [done|]. split; [|split; [|split]].
  - intros n v Hin. destruct (Hkw n v Hin) as (Hv & Hf & d & Hd & Hc).
    pose proof (Hkwpos n v Hin) as Hpos. repeat split; auto.
    apply assoc_elem in Hd. exists d. repeat split; auto.
    rewrite Hl1, (bool_decide_eq_false_2 _ Hpos), (Hl0 n d Hd) in Hf.
    injection Hf as Hf. apply bool_decide_eq_false in Hf.
    destruct (default_value d); [by destruct Hf|done].
  - intros i n v Hn Hv. destruct (Hpos1 i n v Hn Hv) as (Hval & d & Hd & Hc).
    assert (Hpos : n ∈ take (length args) (GetFieldNames T)).
    { apply (list_elem_of_lookup_2 _ i). rewrite lookup_take_lt; [done|].
      by eapply lookup_lt_Some. }
    split; [|exists d; split; [by apply assoc_elem|done]].
    rewrite Hother2; [done|].
    intros ([n' v'] & -> & Hin')%list_elem_of_fmap. by apply (Hkwpos _ _ Hin').
  - intros n d Hd Hpos Hnkw. rewrite Hother2, Hother1 by done.
    specialize (Hin0 n d Hd). destruct (default_value d); by destruct Hin0 as [_ ->].
  - intros n Hn. rewrite Hother2.
    + rewrite Hother1; [by destruct (Hout0 n Hn) as [_ ->]|].
      intros Hin%subseteq_take. done.
    + intros ([n' v'] & -> & Hin')%list_elem_of_fmap.
      destruct (Hkw _ _ Hin') as (_ & _ & d & Hd%assoc_elem & _).
      apply Hn. by eapply elem_names.
Qed.

(** X4.  What a successful construction stores: each positional value in
    the field of its position, each named value in its field, and in every
    other field the default of its descriptor (the sentinel of a [Maybe],
    the empty list of an [Array], nothing otherwise). *)
Theorem Construct_stores (T : CompoundType) (args : list pyvalue)
    (kwargs : list (string * pyvalue)) (self : Instance) :
  wf_type T ->
  __init__ T args kwargs = Ok self ->
  (forall i n v, GetFieldNames T !! i = Some n -> args !! i = Some v ->
     __dict__ self !! n = Some v) /\
  (forall n v, (n, v) ∈ kwargs -> __dict__ self !! n = Some v) /\
  (forall n d, (n, d) ∈ fields T ->
     (n ∉ take (length args) (GetFieldNames T)) -> (n ∉ kwargs.*1) ->
     __dict__ self !! n = default_value d).
Proof.
  intros Hwf Hinit%init_supplied_ok.
  destruct (supplied_dict T args kwargs self Hwf Hinit) as (_ & Hkw & Hpos & Hdef & _).
  split; [|split; [|done]].
  - intros i n v Hn Hv. by destruct (Hpos i n v Hn Hv).
  - intros n v Hin. by destruct (Hkw n v Hin).
Qed.

Lemma Construct_stores_witness :
  exists self,
    __init__ T_opt [VStr "n"] [] = Ok self /\
    __dict__ self !! "name" = Some (VStr "n") /\
    __dict__ self !! "opt" = Some (VInt NO_INTEGER).
Proof.
  eexists.
  match goal with |- ?A /\ _ => assert (H : A) by (vm_compute; reflexivity) end.
  split; [exact H|].
  destruct (Construct_stores T_opt [VStr "n"] [] _ T_opt_wf H) as (Hpos & _ & Hdef).
  split.
  - by apply (Hpos 0%nat).
  - apply (Hdef "opt" (MaybeType IntType)).
    + apply list_elem_of_In. simpl. auto.
    + apply (bool_decide_unpack _). vm_compute. exact I.
    + apply not_elem_of_nil.
Defined.

Lemma Init_required_ok names self :
  _Init_required names self = Ok tt -> forall n, n ∈ names -> get_assigned self n = Ok true.
Proof.
  induction names as [|name names IH]; simpl; intros Hrun n Hn.
  - by apply elem_of_nil in Hn.
  - destruct (get_assigned self name) as [[|]|] eqn:Hflag; simpl in Hrun; try done.
    apply elem_of_cons in Hn as [->|Hn]; auto.
Qed.

Lemma init_all_flagged T args kwargs self :
  args ≠ [] \/ kwargs ≠ [] -> __init__ T args kwargs = Ok self ->
  forall n, n ∈ GetFieldNames T -> get_assigned self n = Ok true.
Proof.
  intros Hne Hinit. pose proof (init_supplied_ok _ _ _ _ Hinit) as Hsup.
  rewrite (init_supplied T args kwargs Hne), Hsup in Hinit. simpl in Hinit.
  destruct (_Init_required (GetFieldNames T) self) as [[]|] eqn:Hreq; [|done].
  by apply Init_required_ok.
Qed.

Lemma CheckUnassigned_loop_flagged T names self acc :
  (forall n, n ∈ names -> get_assigned self n = Ok true) ->
  CheckUnassigned_loop T names self acc = Ok acc.
Proof.
  induction names as [|name names IH]; intros Hall; simpl; [done|].
  rewrite (Hall name) by left. simpl. apply IH. intros n Hn. apply Hall. by right.
Qed.

(** X5.  A construction with at least one value that succeeds leaves no
    field unflagged, so the later [CheckUnassigned] passes. *)
Theorem Construct_with_values_complete (T : CompoundType) (args : list pyvalue)
    (kwargs : list (string * pyvalue)) (self : Instance) :
  args ≠ [] \/ kwargs ≠ [] ->
  __init__ T args kwargs = Ok self ->
  (forall n, n ∈ GetFieldNames T -> get_assigned self n = Ok true) /\
  CheckUnassigned T self = Ok tt.
Proof.
  intros Hne Hinit. pose proof (init_all_flagged T args kwargs self Hne Hinit) as Hall.
  split; [done|]. unfold CheckUnassigned.
  by rewrite (CheckUnassigned_loop_flagged T _ self [] Hall).
Qed.

Lemma Construct_with_values_complete_witness :
  exists self,
    __init__ T_abc [VInt 1; VInt 2] [("c", VInt 3)] = Ok self /\
    CheckUnassigned T_abc self = Ok tt.
Proof.
  eexists.
  match goal with |- ?A /\ _ => assert (H : A) by (vm_compute; reflexivity) end.
  split; [exact H|].
  apply (Construct_with_values_complete T_abc [VInt 1; VInt 2] [("c", VInt 3)]); [|exact H].
  left. discriminate.
Defined.

(** X6.  Exactly when a construction with values succeeds: there are no
    more positional values than fields and each conforms to the field of its
    position; the names are distinct, each names a field without a default
    that is not also given by position, with a conforming value; and every
    field has a default or is given. *)
Theorem Construct_succeeds_iff (T : CompoundType) (args : list pyvalue)
    (kwargs : list (string * pyvalue)) :
  wf_type T -> args ≠ [] \/ kwargs ≠ [] ->
  (exists self, __init__ T args kwargs = Ok self) <->
  (length args <= length (fields T))%nat /\
  (forall i name d v, fields T !! i = Some (name, d) -> args !! i = Some v ->
     _CheckType v d = Ok true) /\
  NoDup kwargs.*1 /\
  (forall n v, (n, v) ∈ kwargs ->
     exists d, (n, d) ∈ fields T /\ default_value d = None /\
               (n ∉ take (length args) (GetFieldNames T)) /\ _CheckType v d = Ok true) /\
  (forall n d, (n, d) ∈ fields T ->
     default_value d ≠ None \/ n ∈ take (length args) (GetFieldNames T) \/ n ∈ kwargs.*1).
Proof.
  intros Hwf Hne. split.
  - intros [self Hinit]. pose proof (init_supplied_ok _ _ _ _ Hinit) as Hsup.
    destruct (supplied_dict T args kwargs self Hwf Hsup) as (Hnd & Hkw & Hpos & _ & _).
    split; [|split; [|split; [done|split]]].
    + destruct (decide (length args <= length (fields T))%nat) as [|Hgt]; [done|].
      pose proof (f_equal is_ok Hinit) as Hok.
      rewrite Construct_too_many_fails in Hok by lia. discriminate.
    + intros i name d v Hf Hv.
      assert (Hn : GetFieldNames T !! i = Some name).
      { unfold GetFieldNames. by rewrite list_lookup_fmap, Hf. }
      destruct (Hpos i name v Hn Hv) as (_ & d' & Hd' & Hc).
      apply (wf_lookup T name d' Hwf) in Hd'.
      rewrite (wf_lookup T name d Hwf) in Hd' by (by eapply list_elem_of_lookup_2).
      by injection Hd' as ->.
    + intros n v Hin. destruct (Hkw n v Hin) as (_ & Hp & d & Hd & Hdef & Hc). eauto.
    + intros n d Hd.
      pose proof (init_all_flagged T args kwargs self Hne Hinit n (elem_names T n d Hd)) as Hf.
      rewrite (supplied_flags T args kwargs self Hwf Hsup n d Hd) in Hf.
      injection Hf as Hf. apply orb_true_iff in Hf as [Hf|Hf]; [|right; right].
      * apply orb_true_iff in Hf as [Hf|Hf]; [left|right; left]; by apply bool_decide_eq_true in Hf.
      * by apply bool_decide_eq_true in Hf.
  - intros (Hlen & Hargs & Hnd & Hkw & Hcover). by apply Construct_accepts.
Qed.

Lemma Construct_succeeds_iff_witness :
  (exists self, __init__ T_abc [VInt 1] [("c", VInt 3)] = Ok self) <->
  (length [VInt 1] <= length (fields T_abc))%nat /\
  (forall i name d v, fields T_abc !! i = Some (name, d) -> [VInt 1] !! i = Some v ->
     _CheckType v d = Ok true) /\
  NoDup [("c", VInt 3)].*1 /\
  (forall n v, (n, v) ∈ [("c", VInt 3)] ->
     exists d, (n, d) ∈ fields T_abc /\ default_value d = None /\
               (n ∉ take (length [VInt 1]) (GetFieldNames T_abc)) /\ _CheckType v d = Ok true) /\
  (forall n d, (n, d) ∈ fields T_abc ->
     default_value d ≠ None \/ n ∈ take (length [VInt 1]) (GetFieldNames T_abc) \/
     n ∈ [("c", VInt 3)].*1).
Proof.
  apply (Construct_succeeds_iff T_abc [VInt 1] [("c", VInt 3)] T_abc_wf).
  left. discriminate.
Defined.

(** ** Invariants of the instances *)

Lemma setattr_well_typed T self name v self' :
  well_typed T self -> __setattr__ T self name v = Ok self' -> well_typed T self'.
Proof.
  intros Hwt Hset. destruct (String.eqb name "_assigned") eqn:Hname.
  - unfold __setattr__ in Hset. rewrite Hname in Hset. injection Hset as <-. exact Hwt.
  - destruct (setattr_inv T self name v self' Hname Hset) as (m & d & _ & Hd & Hc & ->).
    intros n v'. simpl. destruct (decide (name = n)) as [<-|Hne].
    + rewrite lookup_insert_eq. intros [= <-]. eauto.
    + rewrite lookup_insert_ne by done. apply Hwt.
Qed.

Lemma SetDefaults_loop_well_typed T fs self self' :
  well_typed T self -> _SetDefaults_loop T fs self = Ok self' -> well_typed T self'.
Proof.
  revert self. induction fs as [|[n d] fs IH]; intros self Hwt; simpl.
  - by intros [= <-].
  - destruct (default_value d) as [dv|]; [|by apply IH].
    destruct (__setattr__ T self n dv) as [s1|] eqn:Hs; simpl; [|done].
    apply IH. by eapply setattr_well_typed.
Qed.

Lemma Init_args_well_typed T names i args self self' :
  well_typed T self -> _Init_args T names i args self = Ok self' -> well_typed T self'.
Proof.
  revert i self. induction args as [|v args IH]; intros i self Hwt; simpl.
  - by intros [= <-].
  - destruct (names !! i) as [name|]; [|done].
    destruct (__setattr__ T self name v) as [s1|] eqn:Hs; simpl; [|done].
    apply IH. by eapply setattr_well_typed.
Qed.

Lemma Init_kwargs_well_typed T kwargs self self' :
  well_typed T self -> _Init_kwargs T kwargs self = Ok self' -> well_typed T self'.
Proof.
  revert self. induction kwargs as [|[name v] kwargs IH]; intros self Hwt; simpl.
  - by intros [= <-].
  - destruct (get_assigned self name) as [[|]|]; simpl; try done.
    destruct (__setattr__ T self name v) as [s1|] eqn:Hs; simpl; [|done].
    apply IH. by eapply setattr_well_typed.
Qed.

(** X7.  Every value held by an instance conforms to the descriptor of its
    field: this holds of what [__init__] returns, whatever the arguments
    were, and assignments keep it. *)
Theorem reachable_well_typed (T : CompoundType) (self : Instance) :
  reachable T self -> well_typed T self.
Proof.
  induction 1 as [args kwargs self Hinit|self name v self' _ IH _ Hset].
  - apply init_supplied_ok in Hinit. unfold supplied in Hinit.
    destruct (_SetDefaults T (fresh T)) as [s0|] eqn:H0; simpl in Hinit; [|done].
    destruct (_Init_args _ _ _ _ _) as [s1|] eqn:H1; simpl in Hinit; [|done].
    eapply Init_kwargs_well_typed; [|exact Hinit].
    eapply Init_args_well_typed; [|exact H1].
    eapply SetDefaults_loop_well_typed; [|exact H0].
    intros n v. unfold fresh. simpl. by rewrite lookup_empty.
  - by eapply setattr_well_typed.
Qed.

Lemma reachable_well_typed_witness :
  exists self,
    reachable T_opt self /\
    exists d, LookupFieldType T_opt "opt" = Some d /\
              _CheckType (VInt NO_INTEGER) d = Ok true.
Proof.
  eexists.
  match goal with |- ?A /\ _ =>
    assert (H : A) by (eapply (reach_init T_opt [VStr "n"] []); vm_compute; reflexivity)
  end.
  split; [exact H|].
  apply (reachable_well_typed T_opt _ H "opt" (VInt NO_INTEGER)).
  vm_compute. reflexivity.
Defined.

Lemma supplied_table T args kwargs self :
  wf_type T -> supplied T args kwargs = Ok self ->
  exists m, _assigned self = Flags m /\ keys_in T m /\
            forall n, n ∈ GetFieldNames T -> is_Some (m !! n).
Proof.
  intros Hwf Hsup. pose proof (supplied_le T args kwargs self Hsup) as Hle.
  unfold supplied in Hsup.
  destruct (SetDefaults_fresh T Hwf) as (m0 & dict0 & Hrun0 & _).
  destruct (SetDefaults_fresh_keys T m0 dict0 Hwf Hrun0) as [Hk0 _].
  unfold fresh in Hsup. rewrite Hrun0 in Hsup. simpl in Hsup.
  destruct (_Init_args _ _ _ _ _) as [s1|] eqn:H1; simpl in Hsup; [|done].
  destruct (Init_args_wf T 0 args {| _assigned := Flags m0; __dict__ := dict0 |} m0 s1
              Hwf eq_refl Hk0 H1) as (m1 & Hm1 & Hk1 & _).
  destruct (Init_kwargs_wf T kwargs s1 m1 self Hwf Hm1 Hk1 Hsup) as (m2 & Hm2 & Hk2 & _).
  exists m2. repeat split; auto. intros n Hn. rewrite Hm2 in Hle. simpl in Hle.
  apply Hle. rewrite (fresh_flags_elem T n Hn). eauto.
Qed.

Lemma supplied_consistent T args kwargs self :
  wf_type T -> supplied T args kwargs = Ok self -> consistent T self.
Proof.
  intros Hwf Hsup.
  destruct (supplied_table T args kwargs self Hwf Hsup) as (m & Hm & Hk & Hdom).
  destruct (supplied_dict T args kwargs self Hwf Hsup) as (_ & Hkw & Hpos & Hdef & Hout).
  assert (Hval : forall n d, (n, d) ∈ fields T ->
            is_Some (__dict__ self !! n) <->
            default_value d ≠ None \/ n ∈ take (length args) (GetFieldNames T) \/ n ∈ kwargs.*1).
  { intros n d Hd.
    destruct (decide (n ∈ kwargs.*1)) as [Hin|Hnkw].
    { pose proof Hin as Hin'.
      apply list_elem_of_fmap in Hin' as ([n' v] & Heq & Hin'). simpl in Heq. subst n'.
      destruct (Hkw _ _ Hin') as (-> & _). split; [by auto|by eauto]. }
    destruct (decide (n ∈ take (length args) (GetFieldNames T))) as [Hin|Hnpos].
    { pose proof Hin as Hin'. apply list_elem_of_lookup in Hin' as [i Hi].
      apply lookup_take_Some in Hi as [Hi Hlt].
      destruct (lookup_lt_is_Some_2 args i Hlt) as [v Hv].
      destruct (Hpos i n v Hi Hv) as (-> & _). split; [by auto|by eauto]. }
    rewrite (Hdef n d Hd Hnpos Hnkw). split.
    - intros [dv Hdv]. left. by rewrite Hdv.
    - intros [Hdv|[?|?]]; try done. by destruct (default_value d). }
  exists m. split; [done|]. split; [|split].
  - intros n ([n' d] & -> & Hd)%list_elem_of_fmap. simpl.
    pose proof (supplied_flags T args kwargs self Hwf Hsup n' d Hd) as Hflag.
    unfold get_assigned in Hflag. rewrite Hm in Hflag.
    destruct (m !! n') as [b|]; [|done]. injection Hflag as ->. f_equal.
    apply Bool.eq_iff_eq_true.
    rewrite !orb_true_iff, !bool_decide_eq_true, (Hval n' d Hd). tauto.
  - intros n Hn. split; [|by apply Hout].
    destruct (m !! n) eqn:Hmn; [|done]. exfalso. apply Hn, Hk. by rewrite Hmn.
  - intros n d Hd Hdv. apply (Hval n d Hd). by left.
Qed.

Lemma setattr_consistent T self name v self' :
  wf_type T -> name ≠ "_assigned" -> consistent T self ->
  __setattr__ T self name v = Ok self' -> consistent T self'.
Proof.
  intros Hwf Hne%eqb_false_iff (m & Hm & Hin & Hout & Hdef) Hset.
  destruct (setattr_inv T self name v self' Hne Hset) as (m0 & d & Hm0 & Hd & _ & ->).
  rewrite Hm in Hm0. injection Hm0 as <-.
  assert (Hname : name ∈ GetFieldNames T) by (by eapply elem_names, assoc_elem).
  exists (<[name:=true]> m). simpl. split; [done|]. split; [|split].
  - intros n Hn. destruct (decide (name = n)) as [<-|Hneq].
    + by rewrite !lookup_insert_eq.
    + rewrite !lookup_insert_ne by done. by apply Hin.
  - intros n Hn. assert (name ≠ n) by (by intros ->).
    rewrite !lookup_insert_ne by done. by apply Hout.
  - intros n d' Hd' Hdv. destruct (decide (name = n)) as [<-|Hneq].
    + rewrite lookup_insert_eq. eauto.
    + rewrite lookup_insert_ne by done. by eapply Hdef.
Qed.

(** X8.  On a well-formed type the flag table and the values of an instance
    always agree: the keys of the table are the field names, a field is
    flagged exactly when it holds a value, nothing but fields holds a value,
    and a [Maybe] or [Array] field holds one from the start. *)
Theorem reachable_consistent (T : CompoundType) (self : Instance) :
  wf_type T -> reachable T self -> consistent T self.
Proof.
  intros Hwf. induction 1 as [args kwargs self Hinit|self name v self' _ IH Hne Hset].
  - apply init_supplied_ok in Hinit. by eapply supplied_consistent.
  - by eapply setattr_consistent.
Qed.

Lemma reachable_consistent_witness :
  exists self, reachable T_opt self /\ consistent T_opt self.
Proof.
  eexists.
  match goal with |- ?A /\ _ =>
    assert (H : A) by (eapply (reach_init T_opt [VStr "n"] []); vm_compute; reflexivity)
  end.
  split; [exact H|]. exact (reachable_consistent T_opt _ T_opt_wf H).
Defined.

(** ** [CheckUnassigned] *)

Lemma CheckUnassigned_loop_consistent T names self acc :
  wf_type T -> consistent T self ->
  (forall n, n ∈ names -> n ∈ GetFieldNames T) ->
  CheckUnassigned_loop T names self acc =
    Ok (acc ++ filter (fun n => __dict__ self !! n = None) names)%list.
Proof.
  intros Hwf (m & Hm & Hin & _ & Hdef). revert acc.
  induction names as [|name names IH]; intros acc Hsub; simpl.
  - by rewrite app_nil_r.
  - assert (Hname : name ∈ GetFieldNames T) by (apply Hsub; left).
    assert (Hsub' : forall n, n ∈ names -> n ∈ GetFieldNames T) by (intros; apply Hsub; by right).
    unfold get_assigned. rewrite Hm, (Hin name Hname). simpl.
    rewrite filter_cons.
    destruct (__dict__ self !! name) as [v|] eqn:Hv.
    + rewrite bool_decide_eq_true_2 by eauto.
      destruct (decide (Some v = None)); [done|]. by apply IH.
    + rewrite bool_decide_eq_false_2 by (by intros [? ?]).
      destruct (decide (None = None)) as [_|]; [|done].
      apply list_elem_of_fmap in Hname as ([n d] & -> & Hd). simpl in *.
      rewrite (wf_lookup T n d Hwf Hd).
      assert (Hnodef : default_value d = None).
      { destruct (default_value d) eqn:Hdv; [|done].
        destruct (Hdef n d Hd) as [? ?]; congruence. }
      rewrite (IH (acc ++ [n])%list Hsub'), <- app_assoc. simpl.
      destruct d; try done.
Qed.

(** X9.  On every instance of a well-formed type [CheckUnassigned] passes
    when each field holds a value, and otherwise raises its [ValueError]
    with exactly the fields that hold none, in declaration order. *)
Theorem CheckUnassigned_reports_unset (T : CompoundType) (self : Instance) :
  wf_type T -> reachable T self ->
  CheckUnassigned T self =
    match filter (fun n => __dict__ self !! n = None) (GetFieldNames T) with
    | [] => Ok tt
    | unassigned => Raise (ValueError_unassigned unassigned)
    end.
Proof.
  intros Hwf Hreach.
  assert (Hcons : consistent T self).
  { induction Hreach as [args kwargs self Hinit|self name v self' _ IH Hne Hset].
    - apply init_supplied_ok in Hinit. by eapply supplied_consistent.
    - by eapply setattr_consistent. }
  unfold CheckUnassigned.
  rewrite (CheckUnassigned_loop_consistent T _ self [] Hwf Hcons) by done.
  simpl. by destruct (filter _ _).
Qed.

Lemma CheckUnassigned_reports_unset_witness :
  exists s0 self,
    __init__ T_abc [] [] = Ok s0 /\
    __setattr__ T_abc s0 "b" (VInt 2) = Ok self /\
    CheckUnassigned T_abc self = Raise (ValueError_unassigned ["a"; "c"]).
Proof.
  eexists. eexists.
  match goal with |- ?A /\ _ => assert (H0 : A) by (vm_compute; reflexivity) end.
  split; [exact H0|].
  match goal with |- ?A /\ _ => assert (H1 : A) by (vm_compute; reflexivity) end.
  split; [exact H1|].
  rewrite (CheckUnassigned_reports_unset T_abc _ T_abc_wf
             (reach_setattr T_abc _ "b" (VInt 2) _ (reach_init T_abc [] [] _ H0)
                ltac:(discriminate) H1)).
  vm_compute. reflexivity.
Defined.

(** ** Keyword arguments that name no field *)

(** X10.  A keyword that is not a field name ends the construction with the
    [KeyError] of the flag table, raised before the value is looked at. *)
Theorem Construct_unknown_keyword (T : CompoundType) (args : list pyvalue)
    (pre post : list (string * pyvalue)) (name : string) (v : pyvalue) (self : Instance) :
  wf_type T ->
  supplied T args pre = Ok self ->
  name ∉ GetFieldNames T ->
  __init__ T args (pre ++ (name, v) :: post) = Raise (KeyError name).
Proof.
  intros Hwf Hsup Hname.
  destruct (supplied_table T args pre self Hwf Hsup) as (m & Hm & Hk & _).
  rewrite init_supplied by (right; by destruct pre).
  rewrite supplied_app, Hsup. simpl. unfold get_assigned. rewrite Hm.
  destruct (m !! name) eqn:Hmn; [|done]. exfalso. apply Hname, Hk. by rewrite Hmn.
Qed.

Lemma Construct_unknown_keyword_witness :
  __init__ T_abc [VInt 1; VInt 2; VInt 3] [("d", VStr "x")] = Raise (KeyError "d").
Proof.
  eapply (Construct_unknown_keyword T_abc [VInt 1; VInt 2; VInt 3] [] [] "d" (VStr "x")).
  - exact T_abc_wf.
  - vm_compute. reflexivity.
  - apply (bool_decide_unpack _). vm_compute. exact I.
Defined.

End py_meta_extra.

(** * Further properties of [MakeTypes] and [AssignTypes] *)

Module MakeTypes_extra.
Import py_meta py_meta_more MakeTypes_claims.
Local Open Scope result_scope.

Lemma MakeTypes_defn_ok root defn :
  match MakeTypes_defn root defn with
  | Ok _ => value defn ≠ TOther
  | Raise (AssertionError_typ n) => value defn = TOther /\ defn_name defn = n
  end.
Proof.
  unfold MakeTypes_defn. destruct (value defn) as [s|p|]; try done.
  destruct (is_simple s); [done|]. by destruct (cons_loop _ _ _ _ _).
Qed.

(** X11.  [MakeTypes] fails exactly on a schema with a definition that is
    neither a sum nor a product: it returns a registry when there is none,
    and otherwise raises the assertion for the first such definition. *)
Theorem MakeTypes_outcome (module : Module) (root : gmap string pyobj) :
  match MakeTypes module root with
  | Ok _ => Forall (fun d => value d ≠ TOther) (dfns module)
  | Raise (AssertionError_typ n) =>
      exists pre d post,
        dfns module = (pre ++ d :: post)%list /\
        Forall (fun d => value d ≠ TOther) pre /\
        value d = TOther /\ defn_name d = n
  end.
Proof.
  unfold MakeTypes. generalize (dfns module) as ds. intros ds. revert root.
  induction ds as [|d ds IH]; intros root; simpl; [constructor|].
  pose proof (MakeTypes_defn_ok root d) as Hd.
  destruct (MakeTypes_defn root d) as [root1|[n]]; simpl.
  - specialize (IH root1). destruct (MakeTypes_loop ds root1) as [root2|[n]].
    + by constructor.
    + destruct IH as (pre & d' & post & -> & Hpre & Hv & Hn).
      exists (d :: pre), d', post. repeat split; auto; by constructor.
  - destruct Hd as [Hv Hn]. exists [], d, ds. repeat split; auto.
Qed.

(** An entry a definition binds is still there at the end of the walk, when
    the names of the schema are distinct. *)
Lemma MakeTypes_loop_entry ds root0 root d n (Q : option pyobj -> Prop) :
  NoDup (mjoin (names_of_defn <$> ds)) ->
  MakeTypes_loop ds root0 = Ok root ->
  d ∈ ds -> n ∈ names_of_defn d ->
  (forall r r', MakeTypes_defn r d = Ok r' -> Q (r' !! n)) ->
  Q (root !! n).
Proof.
  revert root0. induction ds as [|d0 ds IH]; intros root0 Hnd Hrun Hin Hn HQ.
  - by apply elem_of_nil in Hin.
  - simpl in Hnd, Hrun. apply NoDup_app in Hnd as (Hnd1 & Hdisj & Hnd2).
    destruct (MakeTypes_defn root0 d0) as [root1|] eqn:Hd; simpl in Hrun; [|done].
    apply elem_of_cons in Hin as [->|Hin]; [|by eapply IH].
    rewrite (MakeTypes_loop_other ds root1 root n Hrun) by auto. by eapply HQ.
Qed.

Lemma simple_loop_other i conss attrs n :
  n ∉ name <$> conss -> simple_loop i conss attrs !! n = attrs !! n.
Proof.
  revert i attrs. induction conss as [|c conss IH]; intros i attrs Hn; simpl; [done|].
  rewrite fmap_cons in Hn. apply not_elem_of_cons in Hn as [Hne Hn].
  rewrite IH by done. by rewrite lookup_insert_ne.
Qed.

Lemma simple_loop_lookup i conss attrs j c :
  NoDup (name <$> conss) -> conss !! j = Some c ->
  simple_loop i conss attrs !! name c = Some (Z.of_nat (i + j) + 1, name c).
Proof.
  revert i j attrs.
  induction conss as [|c0 conss IH]; intros i j attrs Hnd Hj; [done|].
  rewrite fmap_cons in Hnd. apply NoDup_cons in Hnd as [Hc0 Hnd]. simpl.
  destruct j as [|j]; simpl in Hj.
  - injection Hj as ->. rewrite simple_loop_other by done.
    by rewrite lookup_insert_eq, Nat.add_0_r.
  - replace (i + S j)%nat with (S i + j)%nat by lia. by apply IH.
Qed.

(** X12.  For a simple sum [MakeTypes] registers one class, under the name
    of the sum followed by [_e]; its attributes are the singletons of the
    alternatives, the one at index [i] made with the number [i + 1] and the
    name of the alternative, and nothing else. *)
Theorem MakeTypes_simple_sum (module : Module) (root0 root : gmap string pyobj)
    (defn : Defn) (s : SumObj) :
  NoDup (registered_names module) ->
  MakeTypes module root0 = Ok root ->
  defn ∈ dfns module -> value defn = TSum s -> is_simple s = true ->
  NoDup (name <$> types s) ->
  exists attrs,
    root !! (defn_name defn +:+ "_e") =
      Some (SimpleClass (defn_name defn +:+ "_e") s attrs) /\
    (forall i c, types s !! i = Some c ->
       attrs !! name c = Some (Z.of_nat i + 1, name c)) /\
    (forall n, n ∉ name <$> types s -> attrs !! n = None).
Proof.
  intros Hnd Hrun Hin Hv Hs Hcons.
  apply (MakeTypes_loop_entry (dfns module) root0 root defn (defn_name defn +:+ "_e")
           (fun o => exists attrs,
              o = Some (SimpleClass (defn_name defn +:+ "_e") s attrs) /\
              (forall i c, types s !! i = Some c ->
                 attrs !! name c = Some (Z.of_nat i + 1, name c)) /\
              (forall n, n ∉ name <$> types s -> attrs !! n = None))); auto.
  - unfold names_of_defn. rewrite Hv, Hs. left.
  - intros r r'. unfold MakeTypes_defn. rewrite Hv, Hs. intros [= <-].
    exists (simple_loop 0 (types s) ∅). rewrite lookup_insert_eq. split; [done|]. split.
    + intros i c Hi. by rewrite (simple_loop_lookup 0 (types s) ∅ i c Hcons Hi).
    + intros n Hn. rewrite simple_loop_other by done. apply lookup_empty.
Qed.

Lemma MakeTypes_simple_sum_witness :
  exists attrs,
    colour_root !! "colour_e" = Some (SimpleClass "colour_e" colour_sum attrs) /\
    attrs !! "Green" = Some (2, "Green").
Proof.
  destruct (MakeTypes_simple_sum colour_module ∅ colour_root
              {| defn_name := "colour"; value := TSum colour_sum |} colour_sum)
    as (attrs & Hcls & Hattr & _).
  - apply (bool_decide_unpack _). vm_compute. exact I.
  - vm_compute. reflexivity.
  - left.
  - reflexivity.
  - reflexivity.
  - apply (bool_decide_unpack _). vm_compute. exact I.
  - exists attrs. split; [exact Hcls|]. exact (Hattr 1%nat _ eq_refl).
Defined.

Lemma MakeTypes_product_entry ds root0 root defn p :
  NoDup (mjoin (names_of_defn <$> ds)) -> MakeTypes_loop ds root0 = Ok root ->
  defn ∈ ds -> value defn = TProduct p ->
  root !! defn_name defn = Some (ProductClass (defn_name defn) p).
Proof.
  intros Hnd Hrun Hin Hv.
  apply (MakeTypes_loop_entry ds root0 root defn (defn_name defn)
           (fun o => o = Some (ProductClass (defn_name defn) p))); auto.
  - unfold names_of_defn. rewrite Hv. left.
  - intros r r'. unfold MakeTypes_defn. rewrite Hv. intros [= <-].
    by rewrite lookup_insert_eq.
Qed.

Lemma NoDup_names_of_defn ds defn :
  NoDup (mjoin (names_of_defn <$> ds)) -> defn ∈ ds -> NoDup (names_of_defn defn).
Proof.
  induction ds as [|d ds IH]; intros Hnd Hin; [by apply elem_of_nil in Hin|].
  simpl in Hnd. apply NoDup_app in Hnd as (Hnd1 & _ & Hnd2).
  apply elem_of_cons in Hin as [->|Hin]; auto.
Qed.

Lemma MakeTypes_base_entry ds root0 root defn s :
  NoDup (mjoin (names_of_defn <$> ds)) -> MakeTypes_loop ds root0 = Ok root ->
  defn ∈ ds -> value defn = TSum s -> is_simple s = false ->
  root !! defn_name defn = Some (BaseClass (defn_name defn)).
Proof.
  intros Hnd Hrun Hin Hv Hs.
  pose proof (NoDup_names_of_defn ds defn Hnd Hin) as Hnd'.
  apply (MakeTypes_loop_entry ds root0 root defn (defn_name defn)
           (fun o => o = Some (BaseClass (defn_name defn)))); auto.
  - unfold names_of_defn. rewrite Hv, Hs. left.
  - intros r r'. unfold MakeTypes_defn. rewrite Hv, Hs.
    destruct (cons_loop _ _ _ _ _) as [root1 tn] eqn:Hloop. intros [= <-].
    unfold names_of_defn in Hnd'. rewrite Hv, Hs in Hnd'. simpl in Hnd'.
    apply NoDup_cons in Hnd' as [Hfirst _].
    apply not_elem_of_app in Hfirst as [Hcons He].
    apply not_elem_of_cons in He as [He _].
    rewrite lookup_insert_ne by done.
    pose proof (cons_loop_other (defn_name defn) 0 (types s)
                  (<[defn_name defn:=BaseClass (defn_name defn)]> r) ∅
                  (defn_name defn) Hcons) as [Hr _].
    rewrite Hloop in Hr. simpl in Hr. by rewrite Hr, lookup_insert_eq.
Qed.

(** X13.  With distinct names, [MakeTypes] binds the name of every product
    to its record class and the name of every compound sum to the base class
    of its alternatives, and leaves every name that the schema does not bind
    as it was in [root]. *)
Theorem MakeTypes_registers (module : Module) (root0 root : gmap string pyobj) :
  NoDup (registered_names module) ->
  MakeTypes module root0 = Ok root ->
  (forall defn p, defn ∈ dfns module -> value defn = TProduct p ->
     root !! defn_name defn = Some (ProductClass (defn_name defn) p)) /\
  (forall defn s, defn ∈ dfns module -> value defn = TSum s -> is_simple s = false ->
     root !! defn_name defn = Some (BaseClass (defn_name defn))) /\
  (forall n, n ∉ registered_names module -> root !! n = root0 !! n).
Proof.
  intros Hnd Hrun. split; [|split].
  - intros defn p Hin Hv. by apply (MakeTypes_product_entry (dfns module) root0).
  - intros defn s Hin Hv Hs. by apply (MakeTypes_base_entry (dfns module) root0 root defn s).
  - intros n Hn. by apply (MakeTypes_loop_other (dfns module) root0 root n).
Qed.

Lemma MakeTypes_registers_witness :
  demo_root !! "token" =
    Some (ProductClass "token" {| prod_oid := 4; prod_fields := [("val", StrType)] |}) /\
  demo_root !! "arith_expr" = Some (BaseClass "arith_expr").
Proof.
  destruct (MakeTypes_registers demo_module ∅ demo_root) as (Hprod & Hbase & _).
  - apply (bool_decide_unpack _). vm_compute. exact I.
  - vm_compute. reflexivity.
  - split.
    + apply (Hprod {| defn_name := "token";
                      value := TProduct {| prod_oid := 4; prod_fields := [("val", StrType)] |} |}).
      * right. left.
      * reflexivity.
    + apply (Hbase {| defn_name := "arith_expr"; value := TSum arith_sum |} arith_sum).
      * left.
      * reflexivity.
      * reflexivity.
Defined.

(** ** The generated classes against [_CheckType] *)

(** X14.  The classes [MakeTypes] registers fit the check: an instance of
    the class of an alternative of a compound sum is accepted where the sum
    is declared, an instance of a record class where its product is
    declared, and an instance of the base class of a compound sum is not
    accepted where the sum is declared. *)
Theorem generated_classes_check (module : Module) (root0 root : gmap string pyobj) :
  NoDup (registered_names module) ->
  MakeTypes module root0 = Ok root ->
  (forall defn s i c, defn ∈ dfns module -> value defn = TSum s -> is_simple s = false ->
     types s !! i = Some c ->
     exists cls, root !! name c = Some cls /\
                 _CheckType (instance_of cls) (desc_of_sum s) = Ok true) /\
  (forall defn p, defn ∈ dfns module -> value defn = TProduct p ->
     exists cls, root !! defn_name defn = Some cls /\
                 _CheckType (instance_of cls) (desc_of_product p) = Ok true) /\
  (forall defn s, defn ∈ dfns module -> value defn = TSum s -> is_simple s = false ->
     exists cls, root !! defn_name defn = Some cls /\
                 _CheckType (instance_of cls) (desc_of_sum s) = Ok false).
Proof.
  intros Hnd Hrun. split; [|split].
  - intros defn s i c Hin Hv Hs Hi.
    destruct (MakeTypes_loop_tags (dfns module) root0 root defn s i c Hnd Hrun Hin Hv Hs Hi)
      as [Hcls _].
    eexists. split; [exact Hcls|]. simpl. rewrite Hs. f_equal.
    apply existsb_exists. exists (cons_oid c). split.
    + apply list_elem_of_In, list_elem_of_fmap. exists c. split; [done|].
      by eapply list_elem_of_lookup_2.
    + unfold is_oid. by apply bool_decide_eq_true_2.
  - intros defn p Hin Hv. eexists.
    split; [by apply (MakeTypes_product_entry (dfns module) root0)|]. simpl.
    unfold is_oid. f_equal. by apply bool_decide_eq_true_2.
  - intros defn s Hin Hv Hs. eexists.
    split; [by apply (MakeTypes_base_entry (dfns module) root0 root defn s)|].
    simpl. rewrite Hs. f_equal.
    apply not_true_is_false. intros (x & _ & Hx)%existsb_exists. discriminate.
Qed.

Lemma generated_classes_check_witness :
  exists cls,
    demo_root !! "ArithVar" = Some cls /\
    _CheckType (instance_of cls) (desc_of_sum arith_sum) = Ok true.
Proof.
  destruct (generated_classes_check demo_module ∅ demo_root) as (Hcons & _ & _).
  - apply (bool_decide_unpack _). vm_compute. exact I.
  - vm_compute. reflexivity.
  - apply (Hcons {| defn_name := "arith_expr"; value := TSum arith_sum |} arith_sum 1%nat
             {| cons_oid := 2; name := "ArithVar"; cons_fields := [("name", StrType)] |}).
    + left.
    + reflexivity.
    + reflexivity.
    + reflexivity.
Defined.

(** ** [AssignTypes] *)

Lemma AssignTypes_fold {V} (l : list (string * V)) (dest : gmap string V) n :
  NoDup l.*1 ->
  foldl (fun dest nv => if startswith "__" nv.1 then dest else <[nv.1 := nv.2]> dest)
        dest l !! n =
    if startswith "__" n then dest !! n
    else match (list_to_map l : gmap string V) !! n with
         | Some v => Some v
         | None => dest !! n
         end.
Proof.
  revert dest. induction l as [|[k v] l IH]; intros dest Hnd; simpl.
  - rewrite lookup_empty. by destruct (startswith "__" n).
  - rewrite fmap_cons in Hnd. apply NoDup_cons in Hnd as [Hk Hnd]. rewrite IH by done.
    destruct (startswith "__" n) eqn:Hn.
    + destruct (startswith "__" k) eqn:Hkd; [done|].
      rewrite lookup_insert_ne; [done|]. intros ->. congruence.
    + destruct (decide (k = n)) as [->|Hne].
      * rewrite lookup_insert_eq, Hn.
        rewrite (not_elem_of_list_to_map_1 l n Hk). by rewrite lookup_insert_eq.
      * rewrite lookup_insert_ne by done.
        destruct (list_to_map l !! n); [done|].
        destruct (startswith "__" k); [done|]. by rewrite lookup_insert_ne.
Qed.

(** X15.  After [AssignTypes] the destination binds every name of the
    source that does not start with two underscores to the value it has in
    the source, and every other name to what it was bound to before. *)
Theorem AssignTypes_lookup {V : Type} (src_module dest_module : gmap string V) (n : string) :
  AssignTypes src_module dest_module !! n =
    if startswith "__" n then dest_module !! n
    else match src_module !! n with
         | Some v => Some v
         | None => dest_module !! n
         end.
Proof.
  unfold AssignTypes. rewrite AssignTypes_fold by apply NoDup_fst_map_to_list.
  by rewrite list_to_map_to_list.
Qed.

End MakeTypes_extra.

(** * Further properties of the arithmetic parser *)

Module parser_extra.
Import py_meta tdop typed_arith_parse parser_preds parser_facts parser_more.
Local Open Scope parser_scope.

Ltac enum_ops :=
  repeat match goal with
         | H : _ ∈ _ :: _ |- _ => apply elem_of_cons in H as [->|H]
         | H : _ ∈ [] |- _ => by apply elem_of_nil in H
         end.

Ltac by_parse n := apply (parse_fuel_mono n); [reflexivity|discriminate|done].

(** X16.  Two binary operators in a row: the second one takes the first
    operation as its left operand when its left binding power does not exceed
    the right bound of the first, and otherwise takes the middle operand for
    itself.  This holds for every pair of operators of the table, so equal
    powers group to the left and only ["**"] groups to the right. *)
Theorem binary_operators_group (fuel : nat) (o1 o2 : string) (a b c : Z) :
  o1 ∈ binary_ops -> o2 ∈ binary_ops -> (4 <= fuel)%nat ->
  parse fuel [number a; op o1; number b; op o2; number c] =
    Done (if (lbp_of o2 <=? rbp_of o1)%Z
          then ArithBinary (VStr o2)
                 (ArithBinary (VStr o1) (Const (VInt a)) (Const (VInt b))) (Const (VInt c))
          else ArithBinary (VStr o1) (Const (VInt a))
                 (ArithBinary (VStr o2) (Const (VInt b)) (Const (VInt c)))) at_eof.
Proof.
  intros H1 H2 Hfuel. unfold binary_ops in H1, H2.
  enum_ops; by_parse 4%nat.
Qed.

Lemma binary_operators_group_witness :
  parse 4 [number 1; op "+"; number 2; op "*"; number 3] =
    Done (ArithBinary (VStr "+") (Const (VInt 1))
            (ArithBinary (VStr "*") (Const (VInt 2)) (Const (VInt 3)))) at_eof.
Proof.
  apply (binary_operators_group 4 "+" "*" 1 2 3).
  - apply (bool_decide_unpack _). vm_compute. exact I.
  - apply (bool_decide_unpack _). vm_compute. exact I.
  - lia.
Defined.

Lemma elem_by_compute (x : string) (l : list string) : bool_decide (x ∈ l) = true -> x ∈ l.
Proof. apply bool_decide_eq_true_1. Qed.



(** X18.  A prefix operator binds tighter than every binary operator, nests
    with another prefix operator, and yields to a postfix operator on its
    operand. *)
Theorem prefix_operators (fuel : nat) (p q o : string) (x : string) (a b : Z) :
  p ∈ prefix_ops -> q ∈ prefix_ops -> o ∈ binary_ops -> (5 <= fuel)%nat ->
  parse fuel [op p; number a; op o; number b] =
    Done (ArithBinary (VStr o) (ArithUnary (VStr p) (Const (VInt a))) (Const (VInt b)))
      at_eof /\
  parse fuel [op p; op q; number a] =
    Done (ArithUnary (VStr p) (ArithUnary (VStr q) (Const (VInt a)))) at_eof /\
  parse fuel [op p; ident x; op "++"] =
    Done (ArithUnary (VStr p) (ArithUnary (VStr "++") (ArithVar (VStr x)))) at_eof.
Proof.
  intros H1 H2 H3 Hfuel. unfold prefix_ops in H1, H2. unfold binary_ops in H3.
  enum_ops; repeat split; by_parse 5%nat.
Qed.

Lemma prefix_operators_witness :
  parse 5 [op "-"; number 1; op "**"; number 2] =
    Done (ArithBinary (VStr "**") (ArithUnary (VStr "-") (Const (VInt 1))) (Const (VInt 2)))
      at_eof.
Proof.
  apply (prefix_operators 5 "-" "-" "**" "x" 1 2).
  - apply elem_by_compute. vm_compute. reflexivity.
  - apply elem_by_compute. vm_compute. reflexivity.
  - apply elem_by_compute. vm_compute. reflexivity.
  - lia.
Defined.

(** X19.  Prefix increment and decrement take a variable or an index
    expression, and refuse a number and an operand that is itself an
    increment or a decrement. *)
Theorem prefix_incdec (fuel : nat) (o o' : string) (x : string) (a : Z) :
  o ∈ incdec_ops -> o' ∈ incdec_ops -> (5 <= fuel)%nat ->
  parse fuel [op o; ident x] = Done (ArithUnary (VStr o) (ArithVar (VStr x))) at_eof /\
  parse fuel [op o; ident x; op "["; number a; op "]"] =
    Done (ArithUnary (VStr o) (Index (ArithVar (VStr x)) (Const (VInt a)))) at_eof /\
  parse fuel [op o; number a] = Raised (ParseError (CantAssign (Const (VInt a)))) /\
  parse fuel [op o; ident x; op o'] =
    Raised (ParseError (CantAssign (ArithUnary (VStr o') (ArithVar (VStr x))))) /\
  parse fuel [op o; op o'; ident x] =
    Raised (ParseError (CantAssign (ArithUnary (VStr o') (ArithVar (VStr x))))).
Proof.
  intros H1 H2 Hfuel. unfold incdec_ops in H1, H2.
  enum_ops; repeat split; by_parse 5%nat.
Qed.

Lemma prefix_incdec_witness :
  parse 5 [op "++"; number 1] = Raised (ParseError (CantAssign (Const (VInt 1)))).
Proof.
  apply (prefix_incdec 5 "++" "++" "x" 1).
  - apply elem_by_compute. vm_compute. reflexivity.
  - apply elem_by_compute. vm_compute. reflexivity.
  - lia.
Defined.

(** X20.  Indexing: a variable followed by a bracketed expression is an
    index node, with a colon and a second expression a slice without step.
    Only a plain variable can be indexed, so a number and an index
    expression cannot; a third part after a second colon and a missing
    closing bracket are refused. *)
Theorem index_and_slice (fuel : nat) (x : string) (i j k : Z) :
  (5 <= fuel)%nat ->
  parse fuel [ident x; op "["; number i; op "]"] =
    Done (Index (ArithVar (VStr x)) (Const (VInt i))) at_eof /\
  parse fuel [ident x; op "["; number i; op ":"; number j; op "]"] =
    Done (Slice (ArithVar (VStr x)) (Const (VInt i)) (Const (VInt j)) None) at_eof /\
  parse fuel [number k; op "["; number i; op "]"] =
    Raised (ParseError (CantBeIndexed (Const (VInt k)))) /\
  parse fuel [ident x; op "["; number i; op "]"; op "["; number j; op "]"] =
    Raised (ParseError (CantBeIndexed (Index (ArithVar (VStr x)) (Const (VInt i))))) /\
  parse fuel [ident x; op "["; number i; op ":"; number j; op ":"; number k; op "]"] =
    Raised (ParseError (Expected "]" (op ":"))) /\
  parse fuel [ident x; op "["; number i] = Raised (ParseError (Expected "]" EOF_TOKEN)).
Proof. intros Hfuel. repeat split; by_parse 5%nat. Qed.

Lemma index_and_slice_witness :
  parse 5 [ident "x"; op "["; number 1; op ":"; number 2; op "]"] =
    Done (Slice (ArithVar (VStr "x")) (Const (VInt 1)) (Const (VInt 2)) None) at_eof.
Proof. apply (index_and_slice 5 "x" 1 2 0). lia. Defined.

(** X21.  The conditional operator groups to the right in both branches,
    takes as condition everything a binary operator other than the comma
    built, and needs its colon. *)
Theorem ternary_operator (fuel : nat) (o : string) (a b c d e : Z) :
  o ∈ binary_ops -> (6 <= fuel)%nat ->
  parse fuel [number a; op "?"; number b; op ":"; number c; op "?"; number d; op ":"; number e] =
    Done (Ternary (Const (VInt a)) (Const (VInt b))
            (Ternary (Const (VInt c)) (Const (VInt d)) (Const (VInt e)))) at_eof /\
  parse fuel [number a; op "?"; number b; op "?"; number c; op ":"; number d; op ":"; number e] =
    Done (Ternary (Const (VInt a))
            (Ternary (Const (VInt b)) (Const (VInt c)) (Const (VInt d)))
            (Const (VInt e))) at_eof /\
  parse fuel [number a; op o; number b; op "?"; number c; op ":"; number d] =
    Done (if (lbp_of "?" <? lbp_of o)%Z
          then Ternary (ArithBinary (VStr o) (Const (VInt a)) (Const (VInt b)))
                 (Const (VInt c)) (Const (VInt d))
          else ArithBinary (VStr o) (Const (VInt a))
                 (Ternary (Const (VInt b)) (Const (VInt c)) (Const (VInt d)))) at_eof /\
  parse fuel [number a; op "?"; number b] = Raised (ParseError (Expected ":" EOF_TOKEN)).
Proof.
  intros H Hfuel. unfold binary_ops in H.
  enum_ops; repeat split; by_parse 6%nat.
Qed.

Lemma ternary_operator_witness :
  parse 6 [number 1; op "?"; number 2] = Raised (ParseError (Expected ":" EOF_TOKEN)).
Proof.
  apply (ternary_operator 6 "+" 1 2 0 0 0).
  - apply elem_by_compute. vm_compute. reflexivity.
  - lia.
Defined.

(** X22.  Parentheses: a parenthesised operation is an operand of the
    operators around it whatever their binding powers are; an opening
    parenthesis needs its closing one and an expression inside. *)
Theorem grouping (fuel : nat) (o1 o2 : string) (a b c : Z) :
  o1 ∈ binary_ops -> o2 ∈ binary_ops -> (6 <= fuel)%nat ->
  parse fuel [op "("; number a; op o1; number b; op ")"; op o2; number c] =
    Done (ArithBinary (VStr o2)
            (ArithBinary (VStr o1) (Const (VInt a)) (Const (VInt b))) (Const (VInt c)))
      at_eof /\
  parse fuel [number a; op o1; op "("; number b; op o2; number c; op ")"] =
    Done (ArithBinary (VStr o1) (Const (VInt a))
            (ArithBinary (VStr o2) (Const (VInt b)) (Const (VInt c)))) at_eof /\
  parse fuel [op "("; number a; op o1; number b] =
    Raised (ParseError (Expected ")" EOF_TOKEN)) /\
  parse fuel [op "("; op ")"] = Raised (ParseError (CantBePrefix (op ")"))).
Proof.
  intros H1 H2 Hfuel. unfold binary_ops in H1, H2.
  enum_ops; repeat split; by_parse 6%nat.
Qed.

Lemma grouping_witness :
  parse 6 [op "("; number 1; op "+"; number 2; op ")"; op "*"; number 3] =
    Done (ArithBinary (VStr "*")
            (ArithBinary (VStr "+") (Const (VInt 1)) (Const (VInt 2))) (Const (VInt 3)))
      at_eof.
Proof.
  apply (grouping 6 "+" "*" 1 2 3).
  - apply elem_by_compute. vm_compute. reflexivity.
  - apply elem_by_compute. vm_compute. reflexivity.
  - lia.
Defined.



Lemma advance_cons t t' l :
  advance {| token := t; lexer := t' :: l |} = {| token := t'; lexer := l |}.
Proof. reflexivity. Qed.

Lemma advance_cons_eq t toks t' l' :
  toks = t' :: l' -> advance {| token := t; lexer := toks |} = {| token := t'; lexer := l' |}.
Proof. by intros ->. Qed.

Lemma null_number : null_lookup MakeShellParserSpec !! "number" = Some {| nud := NullConstant; bp := -1 |}.
Proof. reflexivity. Qed.

Lemma null_name : null_lookup MakeShellParserSpec !! "name" = Some {| nud := NullConstant; bp := -1 |}.
Proof. reflexivity. Qed.

Lemma left_paren :
  left_lookup MakeShellParserSpec !! "(" = Some {| led := LeftFuncCall; lbp := 31; rbp := 31 |}.
Proof. reflexivity. Qed.

Lemma left_eof :
  left_lookup MakeShellParserSpec !! "eof" = Some {| led := LeftError; lbp := 0; rbp := 0 |}.
Proof. reflexivity. Qed.

Lemma one_argument k a t rest :
  after_arg t ->
  ParseUntil MakeShellParserSpec (S (S k)) COMMA_PREC {| token := number a; lexer := t :: rest |} =
    Done (Const (VInt a)) {| token := t; lexer := rest |}.
Proof.
  intros Ht.
  assert (H2 : ParseUntil MakeShellParserSpec 2 COMMA_PREC
                 {| token := number a; lexer := t :: rest |} =
               Done (Const (VInt a)) {| token := t; lexer := rest |}).
  { destruct t as [ty v]. unfold after_arg in Ht. simpl in Ht.
    destruct Ht as [-> | [-> | ->]]; reflexivity. }
  destruct (ParseUntil_mono MakeShellParserSpec 2 (S (S k)) COMMA_PREC
              MakeShellParserSpec_mono ltac:(lia)
              {| token := number a; lexer := t :: rest |}) as [Hf|Heq]; congruence.
Qed.

Lemma arg_tokens_cons a c items :
  arg_tokens ((a, c) :: items) =
    number a :: ((if c then [op ","] else []) ++ arg_tokens items)%list.
Proof. reflexivity. Qed.

Lemma args_head items rest :
  exists t l, (arg_tokens items ++ op ")" :: rest)%list = t :: l /\
    (type t = "number" \/ type t = ")").
Proof.
  destruct items as [|[a c] items].
  - exists (op ")"), rest. split; [reflexivity|by right].
  - rewrite arg_tokens_cons. eexists _, _. split; [reflexivity|by left].
Qed.

Lemma FuncCall_args_unfold fuel p args st :
  FuncCall_args (S fuel) p args st =
    if String.eqb (type (token st)) ")" then Done args st
    else
      match ParseUntil_ p COMMA_PREC st with
      | Done arg st' =>
          FuncCall_args fuel p (args ++ [arg])%list
            (if String.eqb (type (token st')) "," then advance st' else st')
      | Raised e => Raised e
      | OutOfFuel => OutOfFuel
      end.
Proof.
  simpl. unfold pbind at 1, AtToken at 1.
  destruct (String.eqb (type (token st)) ")"); [reflexivity|].
  unfold pbind at 1. destruct (ParseUntil_ p COMMA_PREC st) as [arg st'| |]; try reflexivity.
  unfold pbind at 1, AtToken at 1.
  destruct (String.eqb (type (token st')) ",").
  - unfold pbind at 1. by rewrite Next_advance.
  - reflexivity.
Qed.

Lemma FuncCall_args_list items : forall acc fuel k g rest t l,
  (length items < fuel)%nat ->
  (arg_tokens items ++ op ")" :: rest)%list = t :: l ->
  FuncCall_args fuel {| ParseUntil_ := ParseUntil MakeShellParserSpec (S (S k)); gas := g |} acc
    {| token := t; lexer := l |} =
  Done (acc ++ map (fun item : Z * bool => Const (VInt item.1)) items)%list
    {| token := op ")"; lexer := rest |}.
Proof.
  induction items as [|[a c] items IH]; intros acc fuel k g rest t l Hfuel Heq.
  - simpl in Heq. injection Heq as <- <-. destruct fuel as [|fuel]; [simpl in Hfuel; lia|].
    rewrite FuncCall_args_unfold. simpl. by rewrite app_nil_r.
  - rewrite arg_tokens_cons in Heq. simpl in Heq. injection Heq as <- <-.
    destruct fuel as [|fuel]; [simpl in Hfuel; lia|]. simpl in Hfuel.
    destruct (args_head items rest) as (t' & l' & Heq' & Ht').
    rewrite FuncCall_args_unfold.
    change (String.eqb (type (token {| token := number a; lexer := _ |})) ")") with false.
    cbv iota. cbn [ParseUntil_].
    rewrite <- app_assoc. destruct c; simpl app.
    + rewrite one_argument; [|by left]. simpl token. simpl type.
      change (String.eqb "," ",") with true. cbv iota. rewrite advance_cons_eq with (t' := t') (l' := l'); [|done].
      rewrite (IH _ fuel k g rest t' l'); [|lia|done].
      by rewrite <- app_assoc.
    + rewrite Heq'. rewrite one_argument; [|by right].
      simpl token.
      replace (String.eqb (type t') ",") with false
        by (destruct Ht' as [-> | ->]; reflexivity).
      rewrite (IH _ fuel k g rest t' l'); [|lia|done].
      by rewrite <- app_assoc.
Qed.

(** X24.  Argument lists of any length: each argument may or may not be
    followed by a comma, so commas between arguments are optional and one
    after the last argument is accepted; the arguments are collected in
    order.  Two commas in a row are refused, and an unclosed call fails on
    the end of the input, not in the final [Eat]. *)
Theorem call_argument_list (fuel : nat) (f : string) (items : list (Z * bool)) (a b : Z) :
  (length items + 4 <= fuel)%nat ->
  parse fuel (ident f :: op "(" :: arg_tokens items ++ [op ")"])%list =
    Done (FuncCall (VStr f) (map (fun item : Z * bool => Const (VInt item.1)) items)) at_eof /\
  parse fuel [ident f; op "("; number a; op ","; op ","; number b; op ")"] =
    Raised (ParseError (CantBePrefix (op ","))) /\
  parse fuel [ident f; op "("; number a; op ","; number b] =
    Raised (ParseError (CantBePrefix EOF_TOKEN)).
Proof.
  intros Hfuel.
  split; [|split; (apply (parse_fuel_mono 4%nat); [reflexivity|discriminate|lia])].
  destruct fuel as [|[|[|fuel]]]; try lia.
  destruct (args_head items []) as (t & l & Heq & _).
  unfold parse, Parse. unfold pbind at 1. rewrite Next_advance, advance_cons.
  rewrite ParseUntil_unfold. cbv zeta. cbn [token type ident]. rewrite null_name.
  rewrite advance_cons. unfold pbind at 1. cbn [nud bp].
  change (NullConstant _ (ident f) (-1) {| token := op "("; lexer := _ |})
    with (Done (ArithVar (VStr f))
            {| token := op "("; lexer := (arg_tokens items ++ [op ")"])%list |}).
  cbv beta iota. rewrite ParseLoop_unfold. cbn [token type op]. rewrite left_paren.
  cbn [lbp led tdop.rbp]. change (31 <=? 0)%Z with false. cbv iota.
  rewrite (advance_cons_eq _ _ t l Heq).
  unfold pbind at 1. unfold LeftFuncCall. cbn [is_ArithVar negb]. cbv iota.
  cbv zeta. cbn [gas]. unfold pbind at 1.
  rewrite (FuncCall_args_list items [] (S (S fuel)) fuel (S (S fuel)) [] t l);
    [|lia|done].
  cbn [app]. cbv beta iota. unfold pbind at 1.
  change (Eat ")" {| token := op ")"; lexer := [] |}) with (Done tt at_eof).
  unfold ret at 1. rewrite ParseLoop_unfold.
  change (type (token at_eof)) with "eof". rewrite left_eof. reflexivity.
Qed.

Lemma call_argument_list_witness :
  parse 7 [ident "f"; op "("; number 1; number 2; op ","; number 3; op ","; op ")"] =
    Done (FuncCall (VStr "f") [Const (VInt 1); Const (VInt 2); Const (VInt 3)]) at_eof.
Proof.
  apply (call_argument_list 7 "f" [(1, false); (2, true); (3, true)] 0 0).
  vm_compute. lia.
Defined.

End parser_extra.
